(** * Course-creator pipeline and its SSE bridge: a shallow embedding

    The development follows the TypeScript sources:

    - [orchestrator.ts]  the [EscalationChecker] agent, [researchLoop] and
      [courseCreator];
    - [judge.ts], [researcher.ts]  the two LLM agents;
    - [schemas.ts]  the zod schemas of the HTTP API;
    - [server.ts]  the [GET /api/run/stream] handler;
    - [index.ts]  the command-line runner.

    The agents run on @google/adk, which is not part of the sources: what
    the library does (the Loop and Sequential agents, the runner, the
    session store) is modelled from the specification and marked as such.

    JavaScript values are an inductive type, objects are finite maps from
    property names to values, exceptions are an explicit [Result], and the
    asynchronous handler is a state machine stepped by the happenings of the
    Node event loop. *)

From Stdlib Require Import String List ZArith Bool Lia.
From stdpp Require Import base option gmap strings list.
Import ListNotations.

#[local] Set Warnings "-register-all".
#[local] Open Scope string_scope.

(* ===================================================================== *)
(** ** JavaScript values                                                  *)
(* ===================================================================== *)

Module Js.

(** The JSON-like fragment of JavaScript values that flows through the
    session state.  Numbers are kept as integers: no arithmetic is done on
    them here. *)
Inductive JsValue : Type :=
| JUndefined
| JNull
| JBool (b : bool)
| JNum (n : Z)
| JStr (s : string)
| JArr (items : list JsValue)
| JObj (fields : gmap string JsValue).

(** A computation that may throw. *)
Inductive Result (A : Type) : Type :=
| Ok (a : A)
| Throw (msg : string).
Arguments Ok {A} a.
Arguments Throw {A} msg.

Definition bind {A B : Type} (r : Result A) (k : A -> Result B) : Result B :=
  match r with
  | Ok a => k a
  | Throw msg => Throw msg
  end.

(** [v.k] / [v[k]] for a property name [k] that no built-in prototype
    defines (such as [status], [feedback] or [judge_output]): reading a
    property of [undefined] or [null] throws a TypeError, an object gives
    its own property or [undefined], any other value gives [undefined]. *)
Definition member (v : JsValue) (k : string) : Result JsValue :=
  match v with
  | JUndefined => Throw "TypeError: Cannot read properties of undefined"
  | JNull => Throw "TypeError: Cannot read properties of null"
  | JObj fields => Ok (default JUndefined (fields !! k))
  | JBool _ | JNum _ | JStr _ | JArr _ => Ok JUndefined
  end.

(** Optional chaining [v?.k]: short-circuits to [undefined] on a nullish
    [v], otherwise it is the plain member access. *)
Definition opt_member (v : JsValue) (k : string) : Result JsValue :=
  match v with
  | JUndefined | JNull => Ok JUndefined
  | _ => member v k
  end.

(** [v === s] for a string literal [s]. *)
Definition strict_eq_str (v : JsValue) (s : string) : bool :=
  match v with
  | JStr s' => String.eqb s' s
  | _ => false
  end.

(** [Boolean(v)]. *)
Definition truthy (v : JsValue) : bool :=
  match v with
  | JUndefined | JNull => false
  | JBool b => b
  | JNum n => negb (Z.eqb n 0)
  | JStr s => negb (String.eqb s "")
  | JArr _ | JObj _ => true
  end.

(** A record of string-keyed values, read with [state[k]]: an absent key
    reads as [undefined]. *)
Definition index (state : gmap string JsValue) (k : string) : JsValue :=
  default JUndefined (state !! k).

End Js.
Export Js.

(* ===================================================================== *)
(** ** Events (the part of the ADK event record the sources touch)        *)
(* ===================================================================== *)

Module Adk.

Record FunctionCall : Type := mkFunctionCall {
  fc_name : string;
  fc_args : JsValue
}.

Record FunctionResponse : Type := mkFunctionResponse {
  fr_name : string;
  fr_response : JsValue
}.

Record Part : Type := mkPart {
  text : option string;
  functionCall : option FunctionCall;
  functionResponse : option FunctionResponse
}.

Definition textPart (s : string) : Part :=
  {| text := Some s; functionCall := None; functionResponse := None |}.

Record Content : Type := mkContent {
  role : string;
  parts : list Part
}.

Record EventActions : Type := mkEventActions {
  escalate : option bool
}.

Record Event : Type := mkEvent {
  author : option string;
  content : option Content;
  actions : option EventActions;
  errorCode : option string;
  errorMessage : option string
}.

(** Modelled from the spec: [createEventActions] of @google/adk is not in the
    sources; it builds the actions record from the fields given and leaves
    the escalate flag unset otherwise. *)
Definition createEventActions (esc : option bool) : EventActions :=
  {| escalate := esc |}.

(** Modelled from the spec: [createEvent] of @google/adk is not in the
    sources; it fills in the fields given, defaults [actions] to
    [createEventActions()], and carries no error.  The identifier and time
    stamp the library adds are left out of the record. *)
Definition createEvent (a : string) (c : Content) (acts : option EventActions) : Event :=
  {| author := Some a;
     content := Some c;
     actions := Some (default (createEventActions None) acts);
     errorCode := None;
     errorMessage := None |}.

(** Modelled from the spec: [stringifyContent] of @google/adk is not in the
    sources; the text of an event is the concatenation of the text of its
    parts, empty when there is no content. *)
Definition stringifyContent (e : Event) : string :=
  match content e with
  | None => ""
  | Some c => String.concat "" (map (fun p => default "" (text p)) (parts c))
  end.

(** Modelled from the spec: [getFunctionCalls] of @google/adk is not in the
    sources; the function calls attached to an event, in order. *)
Definition getFunctionCalls (e : Event) : list FunctionCall :=
  match content e with
  | None => []
  | Some c => omap functionCall (parts c)
  end.

(** Modelled from the spec: [getFunctionResponses] of @google/adk is not in
    the sources; the function responses attached to an event, in order. *)
Definition getFunctionResponses (e : Event) : list FunctionResponse :=
  match content e with
  | None => []
  | Some c => omap functionResponse (parts c)
  end.

(** [event.actions?.escalate], as a JavaScript value. *)
Definition escalate_value (e : Event) : JsValue :=
  match actions e with
  | None => JUndefined
  | Some a => match escalate a with
              | None => JUndefined
              | Some b => JBool b
              end
  end.

(** The event carries [actions.escalate = true]. *)
Definition escalates (e : Event) : bool := truthy (escalate_value e).

(** The event is an error event: it carries an error code or message. *)
Definition is_error_event (e : Event) : bool :=
  match errorCode e, errorMessage e with
  | None, None => false
  | _, _ => true
  end.

End Adk.
Export Adk.

(* ===================================================================== *)
(** ** orchestrator.ts, judge.ts, researcher.ts                           *)
(* ===================================================================== *)

Module Orchestrator.

(** The escalate event of [EscalationChecker.runAsyncImpl]. *)
Definition approvedEvent (name : string) : Event :=
  createEvent name
    {| role := "model";
       parts := [textPart "Research approved. Moving to content creation."] |}
    (Some (createEventActions (Some true))).

(** The continue event of [EscalationChecker.runAsyncImpl]. *)
Definition retryEvent (name : string) : Event :=
  createEvent name
    {| role := "model";
       parts := [textPart "Research failed quality check. Retrying..."] |}
    None.

(** [EscalationChecker.runAsyncImpl]: the events the generator yields for an
    agent called [name] over the session state [state], or the exception it
    raises. *)
Definition runAsyncImpl (name : string) (state : gmap string JsValue)
  : Result (list Event) :=
  let lastOutput := index state "judge_output" in
  bind (opt_member lastOutput "status") (fun status =>
    if strict_eq_str status "pass"
    then Ok [approvedEvent name]
    else Ok [retryEvent name]).

(** [runLiveImpl] mirrors the asynchronous behaviour. *)
Definition runLiveImpl (name : string) (state : gmap string JsValue)
  : Result (list Event) :=
  runAsyncImpl name state.

(** Field types of an output schema, as [zodObjectToSchema] receives them. *)
Inductive FieldType : Type :=
| TEnum (options : list string)
| TString.

(** [JudgeFeedbackSchema]. *)
Definition JudgeFeedbackSchema : list (string * FieldType) :=
  [("status", TEnum ["pass"; "fail"]); ("feedback", TString)].

(** The configuration an [LlmAgent] is constructed from. *)
Record LlmAgent : Type := mkLlmAgent {
  name : string;
  model : string;
  description : string;
  instruction : string;
  tools : list string;
  outputSchema : option (list (string * FieldType));
  outputKey : option string;
  disallowTransferToParent : bool;
  disallowTransferToPeers : bool
}.

(** The agents of the pipeline: an LLM agent (a Leaf), the escalation
    checker, a [SequentialAgent] and a [LoopAgent]. *)
Inductive Stage : Type :=
| Leaf (agent : LlmAgent)
| Checker (name : string)
| Sequential (name description : string) (subAgents : list Stage)
| Loop (name : string) (subAgents : list Stage) (maxIterations : nat).

(** A word between double quotes. *)
Definition quoted (w : string) : string :=
  let dq := String (Ascii.ascii_of_nat 34) EmptyString in dq ++ w ++ dq.

(** researcher.ts *)
Definition researcher : Stage :=
  Leaf {| name := "researcher";
          model := "gemini-2.5-flash";
          description := "Gathers information using Google Search.";
          instruction := "You are an expert researcher. Use the search tool to find facts.";
          tools := ["GOOGLE_SEARCH"];
          outputSchema := None;
          outputKey := None;
          disallowTransferToParent := false;
          disallowTransferToPeers := false |}.

(** judge.ts *)
Definition judge : Stage :=
  Leaf {| name := "judge";
          model := "gemini-2.5-flash";
          description := "Evaluates research findings.";
          instruction := "Evaluate the research. Return " ++ quoted "fail"
                         ++ " if info is thin, " ++ quoted "pass" ++ " if complete.";
          tools := [];
          outputSchema := Some JudgeFeedbackSchema;
          outputKey := Some "judge_output";
          disallowTransferToParent := true;
          disallowTransferToPeers := true |}.

(** 1. The research loop (Researcher -> Judge -> Checker). *)
Definition researchLoop : Stage :=
  Loop "research_loop" [researcher; judge; Checker "checker"] 3.

(** 2. The final pipeline. *)
Definition courseCreator : Stage :=
  Sequential "course_creator_pipeline" "Researches and builds a course."
    [researchLoop].

(** Accessors over the agent tree. *)
Definition stage_name (s : Stage) : string :=
  match s with
  | Leaf a => name a
  | Checker n => n
  | Sequential n _ _ => n
  | Loop n _ _ => n
  end.

Definition stage_subAgents (s : Stage) : list Stage :=
  match s with
  | Leaf _ | Checker _ => []
  | Sequential _ _ cs => cs
  | Loop _ cs _ => cs
  end.

Definition stage_outputKey (s : Stage) : option string :=
  match s with
  | Leaf a => outputKey a
  | _ => None
  end.

Definition stage_maxIterations (s : Stage) : option nat :=
  match s with
  | Loop _ _ n => Some n
  | _ => None
  end.

Inductive StageKind : Type := KLeaf | KChecker | KSequential | KLoop.

Definition stage_kind (s : Stage) : StageKind :=
  match s with
  | Leaf _ => KLeaf
  | Checker _ => KChecker
  | Sequential _ _ _ => KSequential
  | Loop _ _ _ => KLoop
  end.

End Orchestrator.
Export Orchestrator.


(* ===================================================================== *)
(** ** The pipeline runner                                                *)
(* ===================================================================== *)

Module Pipeline.

(** Modelled from the spec: the session store of @google/adk is not in the
    sources.  A SessionState is a key-value store, last write wins per key,
    plus an append-only event log. *)
Record SessionState : Type := mkSessionState {
  state : gmap string JsValue;
  eventLog : list Event
}.

(** Modelled from the spec: [mergeState(key, value)] of the session store;
    it overwrites any prior value of the key. *)
Definition mergeState (k : string) (v : JsValue) (ss : SessionState) : SessionState :=
  {| state := <[k := v]> (state ss); eventLog := eventLog ss |}.

(** Modelled from the spec: [appendEvent] of the session store; the log keeps
    production order. *)
Definition appendEvent (e : Event) (ss : SessionState) : SessionState :=
  {| state := state ss; eventLog := eventLog ss ++ [e] |}.

(** Modelled from the spec: what a stage hands to the runner, an event
    together with the stage's structured output once it is fully available. *)
Record Emission : Type := mkEmission {
  emitted : Event;
  structured : option JsValue
}.

(** Modelled from the spec: the answer of the external reasoning capability
    to one delegation, the events it yields and the failure it may end in. *)
Record Delegation : Type := mkDelegation {
  yielded : list Emission;
  failure : option string
}.

(** Modelled from the spec: the external reasoning capability,
    [invoke(promptContext, stateSnapshot)]; the prompt context is the agent's
    configuration and the input message. *)
Definition Capability : Type := LlmAgent -> string -> SessionState -> Delegation.

(** An event as it leaves the runner, tagged with the stage it comes from
    and that stage's output key. *)
Record Produced : Type := mkProduced {
  origin : string;
  originKey : option string;
  emission : Emission
}.

Definition produced_event (p : Produced) : Event := emitted (emission p).

(** Modelled from the spec: the effect the PipelineRunner applies for each
    event before handing it on: when the originating stage declares an
    output key and the structured output is available it is merged under
    that key, and the event is always appended to the log. *)
Definition apply_effect (p : Produced) (ss : SessionState) : SessionState :=
  appendEvent (produced_event p)
    match originKey p, structured (emission p) with
    | Some k, Some v => mergeState k v ss
    | _, _ => ss
    end.

Definition apply_effects (ps : list Produced) (ss : SessionState) : SessionState :=
  fold_left (fun acc p => apply_effect p acc) ps ss.

(** Modelled from the spec: the synthetic terminal error event that surfaces
    a failed delegation. *)
Definition errorEvent (who msg : string) : Event :=
  {| author := Some who;
     content := None;
     actions := None;
     errorCode := Some "delegation_failure";
     errorMessage := Some msg |}.

(** The result of running a stage: the events produced, in order, the
    session state once their effects are applied, and whether the sequence
    ended on a failure. *)
Record Outcome : Type := mkOutcome {
  trace : list Produced;
  after : SessionState;
  failed : bool
}.

Definition forwarded (o : Outcome) : list Event := map produced_event (trace o).

(** Emit [ps] from the session state [ss]. *)
Definition emit (ps : list Produced) (ss : SessionState) (bad : bool) : Outcome :=
  {| trace := ps; after := apply_effects ps ss; failed := bad |}.

Definition plain (who : string) (e : Event) : Produced :=
  {| origin := who; originKey := None;
     emission := {| emitted := e; structured := None |} |}.

(** Modelled from the spec: Leaf.run delegates to the external capability and
    forwards what it yields unmodified; when the delegation raises, a
    synthetic terminal error event ends the sequence. *)
Definition run_leaf (invoke : Capability) (input : string) (a : LlmAgent)
    (ss : SessionState) : Outcome :=
  let d := invoke a input ss in
  let ps := map (fun em => {| origin := name a; originKey := outputKey a;
                              emission := em |}) (yielded d) in
  match failure d with
  | None => emit ps ss false
  | Some msg => emit (ps ++ [plain (name a) (errorEvent (name a) msg)]) ss true
  end.

(** The Checker stage: [EscalationChecker.runAsyncImpl] over the current
    state; an exception it raised would end the run like any failure. *)
Definition run_checker (who : string) (ss : SessionState) : Outcome :=
  match runAsyncImpl who (state ss) with
  | Ok evs => emit (map (plain who) evs) ss false
  | Throw msg => emit [plain who (errorEvent who msg)] ss true
  end.

(** Modelled from the spec: Sequential.run runs each child in listed order,
    exhausting one child's sequence before starting the next, forwards every
    child event and adds none of its own. *)
Definition run_children (runc : Stage -> SessionState -> Outcome)
  : list Stage -> SessionState -> Outcome :=
  fix go (cs : list Stage) (ss : SessionState) : Outcome :=
    match cs with
    | [] => {| trace := []; after := ss; failed := false |}
    | c :: cs' =>
        let o := runc c ss in
        if failed o then o
        else
          let o' := go cs' (after o) in
          {| trace := trace o ++ trace o'; after := after o'; failed := failed o' |}
    end.

(** Modelled from the spec: the states of the Loop stage. *)
Inductive LoopState : Type :=
| Running (i : nat)
| Escalated
| Exhausted.

(** A run of the Loop: the body passes performed, each with the events it
    produced, the state the machine stopped in, and the session state
    then.  The machine stops in [Running i] only when pass [i] failed. *)
Record LoopRun : Type := mkLoopRun {
  passes : list (list Produced);
  final : LoopState;
  loop_after : SessionState;
  loop_failed : bool
}.

(** The last event of a pass carries [actions.escalate = true]. *)
Definition last_escalates (tr : list Produced) : bool :=
  match last tr with
  | Some p => escalates (produced_event p)
  | None => false
  end.

(** Modelled from the spec: the Loop state machine.  In [Running i] with
    [i < maxIterations] the body runs as a sequential composition and its
    events are forwarded; when the last event produced carries the escalate
    flag the machine moves to [Escalated] and stops; otherwise [i] is
    incremented, and the machine moves to [Exhausted] when it reaches
    [maxIterations] and to [Running i] otherwise.  [remaining] is
    [maxIterations - i]. *)
Definition run_loop (body : SessionState -> Outcome)
  : nat -> nat -> SessionState -> LoopRun :=
  fix go (remaining i : nat) (ss : SessionState) : LoopRun :=
    match remaining with
    | O => {| passes := []; final := Exhausted; loop_after := ss; loop_failed := false |}
    | S r =>
        let o := body ss in
        if failed o then
          {| passes := [trace o]; final := Running i;
             loop_after := after o; loop_failed := true |}
        else if last_escalates (trace o) then
          {| passes := [trace o]; final := Escalated;
             loop_after := after o; loop_failed := false |}
        else
          let rest := go r (S i) (after o) in
          {| passes := trace o :: passes rest; final := final rest;
             loop_after := loop_after rest; loop_failed := loop_failed rest |}
    end.

Definition loop_outcome (l : LoopRun) : Outcome :=
  {| trace := concat (passes l); after := loop_after l; failed := loop_failed l |}.

(** Modelled from the spec: the single dispatch function over the stage
    variants. *)
Fixpoint run (invoke : Capability) (input : string) (s : Stage)
    (ss : SessionState) {struct s} : Outcome :=
  match s with
  | Leaf a => run_leaf invoke input a ss
  | Checker who => run_checker who ss
  | Sequential _ _ cs => run_children (run invoke input) cs ss
  | Loop _ cs n =>
      loop_outcome (run_loop (run_children (run invoke input) cs) n 0 ss)
  end.

(** One pass of a loop body, and the Loop stage's own run. *)
Definition run_body (invoke : Capability) (input : string) (body : list Stage)
  : SessionState -> Outcome :=
  run_children (run invoke input) body.

Definition loop_run (invoke : Capability) (input : string) (body : list Stage)
    (maxIterations : nat) (ss : SessionState) : LoopRun :=
  run_loop (run_body invoke input body) maxIterations 0 ss.

(** Modelled from the spec: PipelineRunner.run drives the root stage over a
    session state for one invocation. *)
Definition runner_run (invoke : Capability) (root : Stage) (ss : SessionState)
    (input : string) : Outcome :=
  run invoke input root ss.

End Pipeline.
Export Pipeline.

(* ===================================================================== *)
(** ** schemas.ts                                                         *)
(* ===================================================================== *)

Module Schemas.

(** A value of a parsed query string or JSON body: a string, or the arrays
    and nested objects the query parser builds from repeated and bracketed
    keys. *)
Inductive QVal : Type :=
| QString (s : string)
| QArray (items : list QVal)
| QObject (fields : list (string * QVal)).

(** What the schemas rely on from zod without fixing it: which raw values
    [z.coerce.number()] accepts, and the message of a failed parse. *)
Record Zod : Type := mkZod {
  coerce_number_accepts : QVal -> bool;
  error_message : gmap string QVal -> string
}.

(** [z.string().min(lo).max(hi)] on a field that may be missing. *)
Definition z_string_min_max (lo hi : nat) (v : option QVal) : bool :=
  match v with
  | Some (QString s) =>
      ((lo <=? String.length s) && (String.length s <=? hi))%nat
  | _ => false
  end.

(** [z.string()] *)
Definition z_string (v : option QVal) : bool :=
  match v with
  | Some (QString _) => true
  | _ => false
  end.

(** [z.coerce.number()] *)
Definition z_coerce_number (zod : Zod) (v : option QVal) : bool :=
  match v with
  | Some raw => coerce_number_accepts zod raw
  | None => false
  end.

(** [schema.optional()]: a missing field passes, a present one is checked. *)
Definition optional (check : option QVal -> bool) (v : option QVal) : bool :=
  match v with
  | None => true
  | Some _ => check v
  end.

(** [const id = z.string().min(1).max(128)] *)
Definition id : option QVal -> bool := z_string_min_max 1 128.

(** [SessionCreateBody.safeParse(body).success] *)
Definition SessionCreateBody_success (body : gmap string QVal) : bool :=
  id (body !! "userId") && optional id (body !! "sessionId").

(** [RunStreamQuery.safeParse(query).success] *)
Definition RunStreamQuery_success (zod : Zod) (query : gmap string QVal) : bool :=
  id (query !! "userId")
  && id (query !! "sessionId")
  && z_string_min_max 1 2000 (query !! "q")
  && optional z_string (query !! "model")
  && optional (z_coerce_number zod) (query !! "maxIterations").

(** The fields of [parsed.data] the handler destructures. *)
Record RunStreamData : Type := mkRunStreamData {
  userId : string;
  sessionId : string;
  q : string
}.

Definition string_field (v : option QVal) : string :=
  match v with
  | Some (QString s) => s
  | _ => ""
  end.

(** [RunStreamQuery.safeParse(query)]: the data on success, the error
    message on failure. *)
Definition RunStreamQuery_safeParse (zod : Zod) (query : gmap string QVal)
  : Result RunStreamData :=
  if RunStreamQuery_success zod query
  then Ok {| userId := string_field (query !! "userId");
             sessionId := string_field (query !! "sessionId");
             q := string_field (query !! "q") |}
  else Throw (error_message zod query).

End Schemas.
Export Schemas.

(* ===================================================================== *)
(** ** server.ts: GET /api/run/stream                                     *)
(* ===================================================================== *)

Module Server.

(** The object handed to [send], before [JSON.stringify]: the frame of an
    event, or the error frame.  A [judge_output] of [undefined] is dropped
    by the serialisation, so the frame then carries no snapshot. *)
Inductive Frame : Type :=
| EventFrame (author text : string) (calls responses : list string)
    (escalate : bool) (judge_output : JsValue) (reqId : string)
| ErrorFrame (error code reqId : string).

(** What the handler writes to the response, in order. *)
Inductive Write : Type :=
| WHead (status : nat)
| WRetry
| WKeepalive
| WData (f : Frame)
| WEnd.

(** What [sessionService.getSession] gives when the handler peeks at the
    session after an event: it raises, or returns the session if there is
    one. *)
Inductive Peek : Type :=
| GetSessionThrows
| GetSessionReturns (session : option SessionState).

(** [session?.state?.['judge_output']], [undefined] when the lookup raised. *)
Definition peek_judge_output (pk : Peek) : JsValue :=
  match pk with
  | GetSessionThrows => JUndefined
  | GetSessionReturns None => JUndefined
  | GetSessionReturns (Some session) => index (state session) "judge_output"
  end.

(** The asynchronous generator [runner.runAsync(...)] as the handler sees
    it: each pull ends the sequence, raises, or yields an event; [peek] is
    the session store as it stands once that event is produced. *)
Inductive Run : Type :=
| RDone
| RThrow (msg : string)
| RYield (e : Event) (peek : Peek) (rest : Run).

Inductive Reason : Type := Completed | Aborted | Errored.

(** Where the handler is suspended: in the [for await], waiting for the next
    event; in the [await sessionService.getSession] of the loop body; or
    past [res.end()]. *)
Inductive Phase : Type :=
| Pulling
| Peeking (e : Event) (peek : Peek)
| Ended.

(** The variables of one request. *)
Record Stream : Type := mkStream {
  reqId : string;
  aborted : bool;
  eventCount : nat;
  reason : Reason;
  ping : bool;
  phase : Phase;
  source : Run;
  wire : list Write
}.

(** What the event loop runs next: the suspended handler resumes, the
    request's [close] listener fires, or the keep-alive interval elapses. *)
Inductive Happening : Type :=
| Resume
| ReqClose
| PingTick.

(** The frame sent for an event (the argument of [send] in the loop). *)
Definition event_frame (rid : string) (e : Event) (pk : Peek) : Frame :=
  EventFrame (default "system" (author e))
             (stringifyContent e)
             (map fc_name (getFunctionCalls e))
             (map fr_name (getFunctionResponses e))
             (escalates e)
             (peek_judge_output pk)
             rid.

Definition write (w : Write) (s : Stream) : Stream :=
  {| reqId := reqId s; aborted := aborted s; eventCount := eventCount s;
     reason := reason s; ping := ping s; phase := phase s;
     source := source s; wire := wire s ++ [w] |}.

(** [send(event)] *)
Definition send (f : Frame) (s : Stream) : Stream := write (WData f) s.

(** The [finally] block: [clearInterval(ping); res.end()]. *)
Definition finish (why : Reason) (s : Stream) : Stream :=
  {| reqId := reqId s; aborted := aborted s; eventCount := eventCount s;
     reason := why; ping := false; phase := Ended;
     source := source s; wire := wire s ++ [WEnd] |}.

(** The [close] listener: [aborted = true; clearInterval(ping)]. *)
Definition on_close (s : Stream) : Stream :=
  {| reqId := reqId s; aborted := true; eventCount := eventCount s;
     reason := reason s; ping := false; phase := phase s;
     source := source s; wire := wire s |}.

(** The interval callback: [res.write(': keepalive\n\n')], while the
    interval is not cleared. *)
Definition on_tick (s : Stream) : Stream :=
  if ping s then write WKeepalive s else s.

(** The handler resumes from its suspension point and runs to the next. *)
Definition on_resume (s : Stream) : Stream :=
  match phase s with
  | Ended => s
  | Pulling =>
      match source s with
      | RDone => finish (reason s) s
      | RThrow msg =>
          finish Errored (send (ErrorFrame msg "stream_error" (reqId s)) s)
      | RYield e pk rest =>
          let s' := {| reqId := reqId s; aborted := aborted s;
                       eventCount := eventCount s; reason := reason s;
                       ping := ping s; phase := phase s;
                       source := rest; wire := wire s |} in
          if aborted s
          then finish Aborted s'
          else {| reqId := reqId s'; aborted := aborted s';
                  eventCount := eventCount s'; reason := reason s';
                  ping := ping s'; phase := Peeking e pk;
                  source := source s'; wire := wire s' |}
      end
  | Peeking e pk =>
      let s' := send (event_frame (reqId s) e pk) s in
      {| reqId := reqId s'; aborted := aborted s';
         eventCount := S (eventCount s'); reason := reason s';
         ping := ping s'; phase := Pulling;
         source := source s'; wire := wire s' |}
  end.

Definition step (s : Stream) (h : Happening) : Stream :=
  match h with
  | Resume => on_resume s
  | ReqClose => on_close s
  | PingTick => on_tick s
  end.

Definition run_schedule (s : Stream) (hs : list Happening) : Stream :=
  fold_left step hs s.

(** The stream as the handler sets it up: headers and preamble written, the
    interval started, the [close] listener attached, the first pull
    pending. *)
Definition open_stream (rid : string) (src : Run) : Stream :=
  {| reqId := rid; aborted := false; eventCount := 0; reason := Completed;
     ping := true; phase := Pulling; source := src;
     wire := [WHead 200; WRetry] |}.

(** A whole request once streaming: the runner's sequence consumed under a
    schedule of happenings. *)
Definition serve (rid : string) (src : Run) (hs : list Happening) : Stream :=
  run_schedule (open_stream rid src) hs.

(** The in-memory session service, keyed by application, user and session. *)
Definition SessionKey : Type := string * string * string.

(** Modelled from the spec: [createSession] of the in-memory session service
    of @google/adk is not in the sources; it registers an empty session
    under the key. *)
Definition createSession (k : SessionKey) (store : gmap SessionKey SessionState)
  : gmap SessionKey SessionState :=
  <[k := {| state := ∅; eventLog := [] |}]> store.

(** [sendError(res, status, code, message, reqId)]: the JSON body
    [{error, code, reqId}] under the given status. *)
Record ErrorResponse : Type := mkErrorResponse {
  status : nat;
  body_error : string;
  body_code : string;
  body_reqId : string
}.

Definition sendError (st : nat) (code message rid : string) : ErrorResponse :=
  {| status := st; body_error := message; body_code := code; body_reqId := rid |}.

(** How the handler answers: with a JSON error, or by opening the stream. *)
Inductive Answer : Type :=
| Refused (r : ErrorResponse)
| Streaming (s : Stream).

(** The handler up to the point where streaming starts: validate the query,
    make sure the session exists, build the runner and open the stream.
    [runAsync] stands for [new Runner(...).runAsync(...)] over the store. *)
Definition handle_run_stream (zod : Zod) (appName rid : string)
    (runAsync : gmap SessionKey SessionState -> RunStreamData -> Run)
    (query : gmap string QVal) (store : gmap SessionKey SessionState)
  : Answer * gmap SessionKey SessionState :=
  match RunStreamQuery_safeParse zod query with
  | Throw message => (Refused (sendError 400 "invalid_request" message rid), store)
  | Ok data =>
      let k := (appName, userId data, sessionId data) in
      let store' := match store !! k with
                    | Some _ => store
                    | None => createSession k store
                    end in
      (Streaming (open_stream rid (runAsync store' data)), store')
  end.

End Server.
Export Server.
(* ===================================================================== *)
(** ** index.ts: the command-line runner                                  *)
(* ===================================================================== *)

Module Cli.

(** The lines [main] prints for the events of a run. *)
Inductive Line : Type :=
| LText (author text : string)
| LToolCall (author name : string)
| LToolResponse (author name : string)
| LEscalating (author : string)
| LNoText (author : string)
| LState (judgeStr : string).

(** The variables of the loop and the console. *)
Record Console : Type := mkConsole {
  lastText : string;
  lastJudgePrinted : string;
  printed_lines : list Line
}.

Definition nonempty (s : string) : bool := negb (String.eqb s "").

(** One iteration of the [for await] loop of [main]; [stringify] stands for
    [JSON.stringify].  The result is the console after the iteration and the
    exception that left the loop, if any: the session lookup is not guarded
    here, so when it raises, [main] stops after the lines of the event. *)
Definition on_event (stringify : JsValue -> string) (c : Console) (e : Event)
    (pk : Peek) : Console * option string :=
  let text := stringifyContent e in
  let author := default "system" (author e) in
  let calls := getFunctionCalls e in
  let responses := getFunctionResponses e in
  let l1 := if nonempty text then [LText author text] else [] in
  let l2 := map (fun c => LToolCall author (fc_name c)) calls in
  let l3 := map (fun r => LToolResponse author (fr_name r)) responses in
  let l4 := if escalates e then [LEscalating author] else [] in
  let lines := (l1 ++ l2 ++ l3 ++ l4)%list in
  let l5 := match lines with
            | [] => if String.eqb author "user" then [] else [LNoText author]
            | _ => []
            end in
  let text' := if nonempty text then text else lastText c in
  match pk with
  | GetSessionThrows =>
      ({| lastText := text';
          lastJudgePrinted := lastJudgePrinted c;
          printed_lines := (printed_lines c ++ lines ++ l5)%list |},
       Some "getSession failed")
  | GetSessionReturns _ =>
      let judgeOut := peek_judge_output pk in
      let judgeStr := if truthy judgeOut then stringify judgeOut else "" in
      let changed := nonempty judgeStr
                     && negb (String.eqb judgeStr (lastJudgePrinted c)) in
      ({| lastText := text';
          lastJudgePrinted := if changed then judgeStr else lastJudgePrinted c;
          printed_lines :=
            (printed_lines c ++ lines ++ l5
             ++ (if changed then [LState judgeStr] else []))%list |},
       None)
  end.

(** The loop of [main] over the events of a run. *)
Fixpoint main_loop (stringify : JsValue -> string) (c : Console)
    (evs : list (Event * Peek)) : Console * option string :=
  match evs with
  | [] => (c, None)
  | (e, pk) :: rest =>
      match on_event stringify c e pk with
      | (c', None) => main_loop stringify c' rest
      | (c', Some msg) => (c', Some msg)
      end
  end.

Definition start : Console :=
  {| lastText := ""; lastJudgePrinted := ""; printed_lines := [] |}.

End Cli.
Export Cli.

(* ===================================================================== *)
(** ** Facts about the Checker (orchestrator.ts)                          *)
(* ===================================================================== *)

Section CheckerFacts.

(** What the specification calls "judge_output is present and its status
    field equals pass": the key is bound to an object whose [status]
    property is the string [pass]. *)
Definition status_is_pass (state : gmap string JsValue) : Prop :=
  exists fields : gmap string JsValue,
    state !! "judge_output" = Some (JObj fields) /\
    fields !! "status" = Some (JStr "pass").

(** The value bound to the key has no [status] field. *)
Definition lacks_status (v : JsValue) : Prop :=
  match v with
  | JObj fields => fields !! "status" = None
  | _ => True
  end.

Lemma strict_eq_str_true (v : JsValue) (s : string) :
  strict_eq_str v s = true <-> v = JStr s.
Proof.
  destruct v; simpl; split; try discriminate; intros H.
  - apply String.eqb_eq in H. congruence.
  - injection H as ->. apply String.eqb_refl.
Qed.

Lemma opt_member_total (v : JsValue) (k : string) :
  exists r, opt_member v k = Ok r.
Proof. destruct v; simpl; eauto. Qed.

Lemma opt_member_status_pass (state : gmap string JsValue) :
  opt_member (index state "judge_output") "status" = Ok (JStr "pass")
  <-> status_is_pass state.
Proof.
  unfold status_is_pass, index. split.
  - destruct (state !! "judge_output") as [v|] eqn:Hv; simpl; [|discriminate].
    destruct v; simpl; try discriminate.
    intros H. exists fields. split; [reflexivity|].
    destruct (fields !! "status") as [w|]; simpl in H; congruence.
  - intros (fields & -> & Hs). simpl. rewrite Hs. reflexivity.
Qed.

Lemma approved_escalates (name : string) :
  escalate_value (approvedEvent name) = JBool true.
Proof. reflexivity. Qed.

Lemma retry_no_flag (name : string) :
  escalate_value (retryEvent name) = JUndefined.
Proof. reflexivity. Qed.

(** The decision of the Checker, case by case. *)
Lemma runAsyncImpl_cases (name : string) (state : gmap string JsValue) :
  (status_is_pass state /\ runAsyncImpl name state = Ok [approvedEvent name])
  \/
  (~ status_is_pass state /\ runAsyncImpl name state = Ok [retryEvent name]).
Proof.
  unfold runAsyncImpl.
  destruct (opt_member_total (index state "judge_output") "status") as [r Hr].
  rewrite Hr. simpl.
  destruct (strict_eq_str r "pass") eqn:Hp.
  - left. apply strict_eq_str_true in Hp. subst r.
    apply opt_member_status_pass in Hr. auto.
  - right. split; [|reflexivity].
    intros Hpass. apply opt_member_status_pass in Hpass.
    rewrite Hpass in Hr. injection Hr as <-. discriminate.
Qed.

(** C1. For every session state the Checker yields exactly one event; that
    event carries [actions.escalate = true] if and only if
    [state["judge_output"]] is present with a [status] field equal to
    ["pass"], and in every other case it is the continue event, whose
    escalate flag is unset.  The result is a function of the agent's name and
    the state alone. *)
Theorem checker_escalates_iff_pass (name : string) (state : gmap string JsValue) :
  exists e : Event,
    runAsyncImpl name state = Ok [e] /\
    (escalate_value e = JBool true <-> status_is_pass state) /\
    (escalate_value e = JUndefined <-> ~ status_is_pass state) /\
    (e = approvedEvent name \/ e = retryEvent name).
Proof.
  destruct (runAsyncImpl_cases name state) as [[Hp Hr] | [Hn Hr]].
  - exists (approvedEvent name). rewrite Hr.
    split; [reflexivity|]. split; [|split]; [| |left; reflexivity].
    + split; [intros _; exact Hp | reflexivity].
    + split; [discriminate | intros Hc; destruct (Hc Hp)].
  - exists (retryEvent name). rewrite Hr.
    split; [reflexivity|]. split; [|split]; [| |right; reflexivity].
    + split; [discriminate | intros Hc; destruct (Hn Hc)].
    + split; [intros _; exact Hn | reflexivity].
Qed.

(** The judge's explicit non-pass verdict. *)
Definition explicit_fail : JsValue :=
  JObj (<["status" := JStr "fail"]> (<["feedback" := JStr "thin"]> ∅)).

Lemma opt_member_lacking (state : gmap string JsValue) :
  (state !! "judge_output" = None \/
   exists v, state !! "judge_output" = Some v /\ lacks_status v) ->
  opt_member (index state "judge_output") "status" = Ok JUndefined.
Proof.
  unfold index. intros [-> | (v & -> & Hv)]; [reflexivity|].
  destruct v; simpl in *; try reflexivity. rewrite Hv. reflexivity.
Qed.

(** C10. The Checker's read of [state["judge_output"]] is total.  In a state
    where the key is absent, or bound to a value without a [status] field,
    the optional access returns [undefined] without raising and the Checker
    yields the continue event, which does not escalate: the very result it
    gives when the judge's merged output is an explicit non-pass. *)
Theorem checker_total_without_status (name : string) (state : gmap string JsValue) :
  (state !! "judge_output" = None \/
   exists v, state !! "judge_output" = Some v /\ lacks_status v) ->
  opt_member (index state "judge_output") "status" = Ok JUndefined /\
  runAsyncImpl name state = Ok [retryEvent name] /\
  escalates (retryEvent name) = false /\
  runAsyncImpl name state
    = runAsyncImpl name (<["judge_output" := explicit_fail]> state).
Proof.
  intros H. pose proof (opt_member_lacking state H) as Hm.
  split; [exact Hm|].
  assert (Hrun : runAsyncImpl name state = Ok [retryEvent name]).
  { unfold runAsyncImpl. rewrite Hm. reflexivity. }
  split; [exact Hrun|]. split; [reflexivity|].
  rewrite Hrun. unfold runAsyncImpl, index.
  rewrite lookup_insert_eq. reflexivity.
Qed.

(** The Checker never raises, whatever the state holds. *)
Lemma checker_never_raises (name : string) (state : gmap string JsValue) :
  runAsyncImpl name state = Ok [approvedEvent name] \/
  runAsyncImpl name state = Ok [retryEvent name].
Proof.
  destruct (runAsyncImpl_cases name state) as [[_ H] | [_ H]]; auto.
Qed.

Lemma checker_total_without_status_witness :
  runAsyncImpl "checker" ∅ = Ok [retryEvent "checker"] /\
  runAsyncImpl "checker" (<["judge_output" := JStr "pass"]> ∅)
    = Ok [retryEvent "checker"].
Proof.
  split.
  - apply (checker_total_without_status "checker" ∅). left. reflexivity.
  - apply (checker_total_without_status "checker"
             (<["judge_output" := JStr "pass"]> ∅)).
    right. exists (JStr "pass"). split; [reflexivity | exact I].
Defined.

End CheckerFacts.

(* ===================================================================== *)
(** ** The shape of the pipeline (orchestrator.ts)                        *)
(* ===================================================================== *)

(** C8. The root stage is a Sequential composition with exactly one child,
    a Loop of at most 3 iterations whose body is, in order, the researcher
    Leaf (no output key), the judge Leaf with output key ["judge_output"]
    and the Checker; nothing follows the Loop. *)
Theorem courseCreator_shape :
  stage_kind courseCreator = KSequential /\
  length (stage_subAgents courseCreator) = 1 /\
  exists loop r j c : Stage,
    stage_subAgents courseCreator = [loop] /\
    stage_kind loop = KLoop /\
    stage_maxIterations loop = Some 3 /\
    stage_subAgents loop = [r; j; c] /\
    (stage_kind r = KLeaf /\ stage_name r = "researcher" /\
     stage_outputKey r = None) /\
    (stage_kind j = KLeaf /\ stage_name j = "judge" /\
     stage_outputKey j = Some "judge_output") /\
    stage_kind c = KChecker.
Proof.
  split; [reflexivity|]. split; [reflexivity|].
  exists researchLoop, researcher, judge, (Checker "checker").
  repeat split; reflexivity.
Qed.

(* ===================================================================== *)
(** ** Facts about the runner                                             *)
(* ===================================================================== *)

Section StageInduction.

Variable P : Stage -> Prop.
Hypothesis HLeaf : forall a, P (Leaf a).
Hypothesis HChecker : forall who, P (Checker who).
Hypothesis HSequential : forall n d cs, Forall P cs -> P (Sequential n d cs).
Hypothesis HLoop : forall n cs m, Forall P cs -> P (Loop n cs m).

(** Induction over the agent tree, with the property available for every
    sub-agent. *)
Fixpoint Stage_nested_ind (s : Stage) : P s :=
  let all :=
    fix all (cs : list Stage) : Forall P cs :=
      match cs with
      | [] => List.Forall_nil P
      | c :: cs' => @List.Forall_cons _ P c cs' (Stage_nested_ind c) (all cs')
      end in
  match s with
  | Leaf a => HLeaf a
  | Checker who => HChecker who
  | Sequential n d cs => HSequential n d cs (all cs)
  | Loop n cs m => HLoop n cs m (all cs)
  end.

End StageInduction.

Section RunnerFacts.

Variable invoke : Capability.
Variable input : string.

(** The state an outcome ends in is the start state with the effects of the
    events produced applied in order. *)
Definition effects_applied (f : SessionState -> Outcome) : Prop :=
  forall ss, after (f ss) = apply_effects (trace (f ss)) ss.

Lemma apply_effects_app (ps qs : list Produced) (ss : SessionState) :
  apply_effects (ps ++ qs)%list ss = apply_effects qs (apply_effects ps ss).
Proof. unfold apply_effects. apply fold_left_app. Qed.

Lemma emit_effects (mk : SessionState -> list Produced) (bad : bool) :
  effects_applied (fun ss => emit (mk ss) ss bad).
Proof. intros ss. reflexivity. Qed.

Lemma run_children_effects (runc : Stage -> SessionState -> Outcome)
    (cs : list Stage) :
  Forall (fun c => effects_applied (runc c)) cs ->
  effects_applied (run_children runc cs).
Proof.
  induction 1 as [|c cs Hc _ IH]; intros ss; simpl; [reflexivity|].
  destruct (failed (runc c ss)); [apply Hc|].
  simpl. rewrite apply_effects_app, <- Hc. apply IH.
Qed.

Lemma run_loop_effects (body : SessionState -> Outcome) :
  effects_applied body ->
  forall n i, effects_applied (fun ss => loop_outcome (run_loop body n i ss)).
Proof.
  intros Hb n. induction n as [|n IH]; intros i ss; simpl; [reflexivity|].
  destruct (failed (body ss)); simpl.
  - rewrite app_nil_r. apply Hb.
  - destruct (last_escalates (trace (body ss))); simpl.
    + rewrite app_nil_r. apply Hb.
    + rewrite apply_effects_app, <- Hb. apply (IH (S i) (after (body ss))).
Qed.

Lemma run_effects (s : Stage) : effects_applied (run invoke input s).
Proof.
  induction s as [a|who|n d cs IH|n cs m IH] using Stage_nested_ind.
  - intros ss. simpl. unfold run_leaf. destruct (failure _); reflexivity.
  - intros ss. simpl. unfold run_checker. destruct (runAsyncImpl _ _); reflexivity.
  - simpl. apply run_children_effects, IH.
  - simpl. apply run_loop_effects, run_children_effects, IH.
Qed.

(** The state component of [apply_effects]: a key keeps the value of the
    last event that merged under it. *)
Definition writes (k : string) (p : Produced) : Prop :=
  originKey p = Some k /\ structured (emission p) <> None.

Lemma apply_effect_state_other (k : string) (p : Produced) (ss : SessionState) :
  ~ writes k p -> state (apply_effect p ss) !! k = state ss !! k.
Proof.
  unfold writes, apply_effect. intros Hn.
  destruct (originKey p) as [k'|]; [|reflexivity].
  destruct (structured (emission p)) as [v|]; [|reflexivity].
  simpl. apply lookup_insert_ne. intros ->. apply Hn. split; congruence.
Qed.

Lemma apply_effect_state_same (k : string) (v : JsValue) (p : Produced)
    (ss : SessionState) :
  originKey p = Some k -> structured (emission p) = Some v ->
  state (apply_effect p ss) !! k = Some v.
Proof.
  unfold apply_effect. intros -> ->. simpl. apply lookup_insert_eq.
Qed.

Lemma apply_effects_state_other (k : string) (ps : list Produced) :
  Forall (fun p => ~ writes k p) ps ->
  forall ss, state (apply_effects ps ss) !! k = state ss !! k.
Proof.
  induction 1 as [|p ps Hp _ IH]; intros ss; [reflexivity|].
  unfold apply_effects in *. simpl. rewrite IH.
  apply apply_effect_state_other, Hp.
Qed.

Lemma apply_effects_log (ps : list Produced) (ss : SessionState) :
  eventLog (apply_effects ps ss) = (eventLog ss ++ map produced_event ps)%list.
Proof.
  revert ss. induction ps as [|p ps IH]; intros ss.
  - simpl. rewrite app_nil_r. reflexivity.
  - unfold apply_effects in *. simpl. rewrite IH.
    unfold apply_effect, appendEvent. simpl.
    destruct (originKey p); [destruct (structured (emission p))|];
      simpl; rewrite <- app_assoc; reflexivity.
Qed.

(** The value an event merges under the key [k], if any: the structured
    output it carries, when its stage declares [k] as its output key. *)
Definition written (k : string) (p : Produced) : option JsValue :=
  match originKey p with
  | Some k' => if String.eqb k' k then structured (emission p) else None
  | None => None
  end.

(** The last value merged under [k] by a sequence of events. *)
Definition last_written (k : string) (ps : list Produced) : option JsValue :=
  last (omap (written k) ps).

(** The LLM agents of a pipeline, left to right. *)
Fixpoint leaves (s : Stage) : list LlmAgent :=
  match s with
  | Leaf a => [a]
  | Checker _ => []
  | Sequential _ _ cs => concat (map leaves cs)
  | Loop _ cs _ => concat (map leaves cs)
  end.

(** An event tagged with an output key comes from an agent of the pipeline
    [s] that bears the event's origin as its name and declares that key. *)
Definition from_holder (s : Stage) (p : Produced) : Prop :=
  forall k, originKey p = Some k ->
    exists a, In a (leaves s) /\ name a = origin p /\ outputKey a = Some k.

Lemma written_writes (k : string) (p : Produced) :
  written k p = None <-> ~ writes k p.
Proof.
  unfold written, writes. destruct (originKey p) as [k'|].
  - destruct (String.eqb_spec k' k) as [-> | Hne].
    + destruct (structured (emission p)) as [v|]; split.
      * discriminate.
      * intros H. destruct H. split; congruence.
      * intros _ [_ H]. congruence.
      * reflexivity.
    + split; [|reflexivity]. intros _ [H _]. congruence.
  - split; [|reflexivity]. intros _ [H _]. discriminate.
Qed.

Lemma written_value (k : string) (v : JsValue) (p : Produced) :
  written k p = Some v ->
  originKey p = Some k /\ structured (emission p) = Some v.
Proof.
  unfold written. destruct (originKey p) as [k'|]; [|discriminate].
  destruct (String.eqb_spec k' k) as [-> | Hne]; [auto | discriminate].
Qed.

Lemma apply_effect_state (k : string) (p : Produced) (ss : SessionState) :
  state (apply_effect p ss) !! k
  = match written k p with
    | Some v => Some v
    | None => state ss !! k
    end.
Proof.
  destruct (written k p) as [v|] eqn:Hw.
  - apply written_value in Hw as [Hk Hv]. apply apply_effect_state_same; assumption.
  - apply apply_effect_state_other, written_writes, Hw.
Qed.

Lemma apply_effects_state (k : string) (ps : list Produced) (ss : SessionState) :
  state (apply_effects ps ss) !! k
  = match last_written k ps with
    | Some v => Some v
    | None => state ss !! k
    end.
Proof.
  unfold last_written.
  induction ps as [|p ps IH] using rev_ind; [reflexivity|].
  rewrite apply_effects_app, omap_app.
  change (apply_effects [p] (apply_effects ps ss))
    with (apply_effect p (apply_effects ps ss)).
  rewrite apply_effect_state. simpl.
  destruct (written k p) as [v|]; simpl.
  - rewrite last_snoc. reflexivity.
  - rewrite app_nil_r. exact IH.
Qed.

Lemma run_children_trace (Q : Produced -> Prop)
    (runc : Stage -> SessionState -> Outcome) (cs : list Stage) :
  Forall (fun c => forall ss, Forall Q (trace (runc c ss))) cs ->
  forall ss, Forall Q (trace (run_children runc cs ss)).
Proof.
  induction 1 as [|c cs Hc _ IH]; intros ss; simpl; [constructor|].
  destruct (failed (runc c ss)); [apply Hc|].
  simpl. apply Forall_app. split; [apply Hc | apply IH].
Qed.

Lemma run_loop_trace (Q : Produced -> Prop) (body : SessionState -> Outcome) :
  (forall ss, Forall Q (trace (body ss))) ->
  forall n i ss, Forall Q (concat (passes (run_loop body n i ss))).
Proof.
  intros Hb n. induction n as [|n IH]; intros i ss; simpl; [constructor|].
  destruct (failed (body ss)); simpl.
  - rewrite app_nil_r. apply Hb.
  - destruct (last_escalates (trace (body ss))); simpl.
    + rewrite app_nil_r. apply Hb.
    + apply Forall_app. split; [apply Hb | apply IH].
Qed.

Lemma from_holder_child (c : Stage) (cs : list Stage) (p : Produced) :
  In c cs ->
  from_holder c p ->
  forall k, originKey p = Some k ->
    exists a, In a (concat (map leaves cs)) /\ name a = origin p /\
              outputKey a = Some k.
Proof.
  intros Hin Hc k Hk. destruct (Hc k Hk) as (a & Ha & Hn & Ho).
  exists a. split; [|auto].
  apply in_concat. exists (leaves c). split; [apply in_map, Hin | exact Ha].
Qed.

Lemma children_from_holder (s : Stage) (cs : list Stage) :
  leaves s = concat (map leaves cs) ->
  Forall (fun c => forall ss, Forall (from_holder c) (trace (run invoke input c ss))) cs ->
  Forall (fun c => forall ss, Forall (from_holder s) (trace (run invoke input c ss))) cs.
Proof.
  intros Hs H. rewrite List.Forall_forall in *. intros c Hin ss.
  specialize (H c Hin ss). rewrite List.Forall_forall in *. intros p Hp k Hk.
  unfold from_holder in H. rewrite Hs.
  exact (from_holder_child c cs p Hin (H p Hp) k Hk).
Qed.

Lemma run_trace_from_holder (s : Stage) (ss : SessionState) :
  Forall (from_holder s) (trace (run invoke input s ss)).
Proof.
  revert ss.
  induction s as [a|who|n d cs IH|n cs m IH] using Stage_nested_ind; intros ss.
  - simpl. unfold run_leaf.
    assert (Hps : Forall (from_holder (Leaf a))
                    (map (fun em => {| origin := name a; originKey := outputKey a;
                                       emission := em |}) (yielded (invoke a input ss)))).
    { apply List.Forall_forall. intros p Hp. apply in_map_iff in Hp as (em & <- & _).
      intros k Hk. exists a. simpl in *. auto. }
    destruct (failure (invoke a input ss)); simpl; [|exact Hps].
    apply Forall_app. split; [exact Hps|].
    constructor; [|constructor]. intros k Hk. discriminate.
  - simpl. unfold run_checker.
    destruct (runAsyncImpl who (state ss)) as [evs|msg]; simpl.
    + apply List.Forall_forall. intros p Hp. apply in_map_iff in Hp as (e & <- & _).
      intros k Hk. discriminate.
    + constructor; [|constructor]. intros k Hk. discriminate.
  - simpl. apply run_children_trace.
    exact (children_from_holder (Sequential n d cs) cs eq_refl IH).
  - simpl. apply run_loop_trace. apply run_children_trace.
    exact (children_from_holder (Loop n cs m) cs eq_refl IH).
Qed.

(** C7 (as amended). In every run and for every key [k]: after the run
    [state[k]] is the structured output carried by the last event, among
    the events of the stages that declare [k] as their output key, that
    carried one, however many events were produced before or after it
    (each merge overwrites the earlier value); when no event carried an
    output for [k], the key keeps what it held before the run.  Every event
    tagged with a key comes from an agent of the pipeline that declares
    that key. *)
Theorem output_key_holds_last_written (root : Stage) (ss : SessionState)
    (k : string) :
  let o := runner_run invoke root ss input in
  state (after o) !! k
  = match last_written k (trace o) with
    | Some v => Some v
    | None => state ss !! k
    end /\
  Forall (from_holder root) (trace o).
Proof.
  intros o. subst o. unfold runner_run. split.
  - rewrite run_effects. apply apply_effects_state.
  - apply run_trace_from_holder.
Qed.

End RunnerFacts.

(* ===================================================================== *)
(** ** Facts about the Loop                                               *)
(* ===================================================================== *)

Section LoopFacts.

Variable body : SessionState -> Outcome.

(** The session state after [k] complete passes of the body. *)
Fixpoint state_after_passes (k : nat) (ss : SessionState) : SessionState :=
  match k with
  | O => ss
  | S k' => state_after_passes k' (after (body ss))
  end.

(** Pass number [k] of the body, counting from 0. *)
Definition nth_pass (k : nat) (ss : SessionState) : Outcome :=
  body (state_after_passes k ss).

(** The events of the first [k] passes, pass by pass. *)
Fixpoint unrolled (k : nat) (ss : SessionState) : list (list Produced) :=
  match k with
  | O => []
  | S k' => trace (body ss) :: unrolled k' (after (body ss))
  end.

(** Pass [k] completes and its last event does not escalate. *)
Definition pass_continues (k : nat) (ss : SessionState) : Prop :=
  failed (nth_pass k ss) = false /\
  last_escalates (trace (nth_pass k ss)) = false.

(** Pass [k] completes and its last event carries the escalate flag. *)
Definition pass_escalates (k : nat) (ss : SessionState) : Prop :=
  failed (nth_pass k ss) = false /\
  last_escalates (trace (nth_pass k ss)) = true.

Lemma unrolled_length (k : nat) (ss : SessionState) :
  length (unrolled k ss) = k.
Proof. revert ss. induction k as [|k IH]; intros ss; simpl; auto. Qed.

Lemma pass_continues_shift (k : nat) (ss : SessionState) :
  pass_continues (S k) ss <-> pass_continues k (after (body ss)).
Proof. reflexivity. Qed.

Lemma pass_escalates_shift (k : nat) (ss : SessionState) :
  pass_escalates (S k) ss <-> pass_escalates k (after (body ss)).
Proof. reflexivity. Qed.

Lemma run_loop_exhausts (n i : nat) (ss : SessionState) :
  (forall j, j < n -> pass_continues j ss) ->
  run_loop body n i ss
  = {| passes := unrolled n ss; final := Exhausted;
       loop_after := state_after_passes n ss; loop_failed := false |}.
Proof.
  revert i ss. induction n as [|n IH]; intros i ss H; simpl; [reflexivity|].
  destruct (H 0 ltac:(lia)) as [Hf He]. unfold nth_pass in Hf, He. simpl in Hf, He.
  rewrite Hf, He, (IH (S i) (after (body ss))); [reflexivity|].
  intros j Hj. apply (proj1 (pass_continues_shift j ss)), H. lia.
Qed.

Lemma run_loop_escalates (n k i : nat) (ss : SessionState) :
  k < n ->
  (forall j, j < k -> pass_continues j ss) ->
  pass_escalates k ss ->
  run_loop body n i ss
  = {| passes := unrolled (S k) ss; final := Escalated;
       loop_after := state_after_passes (S k) ss; loop_failed := false |}.
Proof.
  revert n i ss. induction k as [|k IH]; intros n i ss Hk Hbefore Hesc.
  - destruct n as [|n]; [lia|]. destruct Hesc as [Hf He].
    unfold nth_pass in Hf, He. simpl in *. rewrite Hf, He. reflexivity.
  - destruct n as [|n]; [lia|].
    destruct (Hbefore 0 ltac:(lia)) as [Hf He].
    unfold nth_pass in Hf, He. simpl in Hf, He.
    cbn [run_loop]. rewrite Hf, He.
    rewrite (IH n (S i) (after (body ss))); [reflexivity|lia| |].
    + intros j Hj. apply (proj1 (pass_continues_shift j ss)), Hbefore. lia.
    + apply (proj1 (pass_escalates_shift k ss)), Hesc.
Qed.

(** Pass [k] ends on a failed delegation. *)
Definition pass_fails (k : nat) (ss : SessionState) : Prop :=
  failed (nth_pass k ss) = true.

Lemma pass_fails_shift (k : nat) (ss : SessionState) :
  pass_fails (S k) ss <-> pass_fails k (after (body ss)).
Proof. reflexivity. Qed.

(** The first pass that fails ends the Loop where it stands: no further
    pass is made and the failure is handed to the parent. *)
Lemma run_loop_fails (n k i : nat) (ss : SessionState) :
  k < n ->
  (forall j, j < k -> pass_continues j ss) ->
  pass_fails k ss ->
  run_loop body n i ss
  = {| passes := unrolled (S k) ss; final := Running (i + k);
       loop_after := state_after_passes (S k) ss; loop_failed := true |}.
Proof.
  revert n i ss. induction k as [|k IH]; intros n i ss Hk Hbefore Hfail.
  - destruct n as [|n]; [lia|]. unfold pass_fails, nth_pass in Hfail.
    simpl in *. rewrite Hfail, Nat.add_0_r. reflexivity.
  - destruct n as [|n]; [lia|].
    destruct (Hbefore 0 ltac:(lia)) as [Hf He].
    unfold nth_pass in Hf, He. simpl in Hf, He.
    cbn [run_loop]. rewrite Hf, He.
    rewrite (IH n (S i) (after (body ss))); [|lia| |].
    + rewrite Nat.add_succ_r. reflexivity.
    + intros j Hj. apply (proj1 (pass_continues_shift j ss)), Hbefore. lia.
    + apply (proj1 (pass_fails_shift k ss)), Hfail.
Qed.

Lemma last_concat_unrolled (k : nat) (ss : SessionState) :
  trace (nth_pass k ss) <> [] ->
  last (concat (unrolled (S k) ss)) = last (trace (nth_pass k ss)).
Proof.
  revert ss. induction k as [|k IH]; intros ss Hne.
  - simpl. rewrite app_nil_r. reflexivity.
  - change (unrolled (S (S k)) ss)
      with (trace (body ss) :: unrolled (S k) (after (body ss))).
    rewrite concat_cons, last_app, (IH (after (body ss)) Hne).
    change (nth_pass k (after (body ss))) with (nth_pass (S k) ss).
    destruct (trace (nth_pass (S k) ss)) as [|p ps] eqn:E; [congruence|].
    destruct (last (p :: ps)) eqn:El; [reflexivity|].
    apply last_None in El. discriminate.
Qed.

End LoopFacts.

Section LoopClaims.

Variable invoke : Capability.
Variable input : string.

Lemma run_children_app (runc : Stage -> SessionState -> Outcome)
    (a b : list Stage) (ss : SessionState) :
  run_children runc (a ++ b)%list ss
  = let o := run_children runc a ss in
    if failed o then o
    else
      let o' := run_children runc b (after o) in
      {| trace := trace o ++ trace o'; after := after o'; failed := failed o' |}.
Proof.
  revert ss. induction a as [|c a IH]; intros ss; simpl.
  - destruct (run_children runc b ss); reflexivity.
  - destruct (failed (runc c ss)) eqn:Hc; simpl; [rewrite Hc; reflexivity|].
    rewrite IH. simpl.
    destruct (failed (run_children runc a (after (runc c ss)))) eqn:Ha; simpl;
      [rewrite Ha; reflexivity|]. rewrite app_assoc. reflexivity.
Qed.

Lemma last_escalates_snoc (tr : list Produced) (p : Produced) :
  last_escalates (tr ++ [p]) = escalates (produced_event p).
Proof. unfold last_escalates. rewrite last_snoc. reflexivity. Qed.

(** In a body that ends with the Checker, a pass whose earlier children all
    complete escalates exactly when the Checker reads a passing verdict. *)
Lemma checker_closes_pass (before : list Stage) (who : string) (ss : SessionState) :
  failed (run_body invoke input before ss) = false ->
  failed (run_body invoke input (before ++ [Checker who]) ss) = false /\
  (last_escalates (trace (run_body invoke input (before ++ [Checker who]) ss)) = true
   <-> status_is_pass (state (after (run_body invoke input before ss)))).
Proof.
  intros Hf. unfold run_body in *. rewrite run_children_app. simpl.
  rewrite Hf. simpl. unfold run_checker.
  destruct (runAsyncImpl_cases who
              (state (after (run_children (run invoke input) before ss))))
    as [[Hp Hr] | [Hn Hr]]; rewrite Hr; simpl.
  - split; [reflexivity|]. rewrite last_escalates_snoc. split; auto.
  - split; [reflexivity|]. rewrite last_escalates_snoc. split.
    + discriminate.
    + intros Hp. destruct (Hn Hp).
Qed.

(** The Checker stage consults neither the reasoning capability nor the
    input message nor the event log: its events depend on the state only. *)
Lemma checker_ignores_capability (invoke' : Capability) (input' who : string)
    (ss ss' : SessionState) :
  state ss = state ss' ->
  forwarded (run invoke input (Checker who) ss)
  = forwarded (run invoke' input' (Checker who) ss').
Proof.
  intros H. simpl. unfold run_checker. rewrite H.
  destruct (runAsyncImpl who (state ss')); reflexivity.
Qed.

(** C2 (as amended). For a Loop with [maxIterations = n > 0] in which no
    delegation fails and no pass ends with an escalate event from the
    Checker, the Loop
    performs exactly [n] body passes, each running the body's children in
    order, forwards their events and nothing after the [n]-th pass, stops
    in [Exhausted] without failing, and the enclosing Sequential goes on
    with the next sibling from the state the Loop left. *)
Theorem loop_exhausts_after_max_iterations (lname sname sdesc : string)
    (body siblings : list Stage) (n : nat) (ss : SessionState) :
  0 < n ->
  (forall j, j < n -> pass_continues (run_body invoke input body) j ss) ->
  let l := loop_run invoke input body n ss in
  let next := run invoke input (Sequential sname sdesc siblings) (loop_after l) in
  length (passes l) = n /\
  passes l = unrolled (run_body invoke input body) n ss /\
  final l = Exhausted /\
  loop_failed l = false /\
  trace (run invoke input (Loop lname body n) ss) = concat (passes l) /\
  run invoke input (Sequential sname sdesc (Loop lname body n :: siblings)) ss
  = {| trace := concat (passes l) ++ trace next;
       after := after next;
       failed := failed next |}.
Proof.
  intros _ H l next. subst l next. unfold loop_run, run_body in *.
  cbn [run run_children].
  rewrite (run_loop_exhausts _ n 0 ss H).
  cbn [passes final loop_after loop_failed loop_outcome trace after failed].
  rewrite unrolled_length.
  repeat split; reflexivity.
Qed.

Lemma last_map_produced (tr : list Produced) :
  last (map produced_event tr) = option_map produced_event (last tr).
Proof.
  induction tr as [|p [|q tr] IH]; try reflexivity.
  change (last (produced_event p :: map produced_event (q :: tr))
          = option_map produced_event (last (q :: tr))).
  exact IH.
Qed.

(** C3. When pass number [k + 1 <= maxIterations] is the first to end with
    an escalate event, the Loop forwards the events of exactly [k + 1]
    passes, the escalate event being the last one, stops in [Escalated]
    without failing, and performs no further pass. *)
Theorem loop_escalates_at_pass (lname : string) (body : list Stage)
    (n k : nat) (ss : SessionState) :
  k < n ->
  (forall j, j < k -> pass_continues (run_body invoke input body) j ss) ->
  pass_escalates (run_body invoke input body) k ss ->
  let l := loop_run invoke input body n ss in
  let o := run invoke input (Loop lname body n) ss in
  length (passes l) = S k /\
  passes l = unrolled (run_body invoke input body) (S k) ss /\
  final l = Escalated /\
  failed o = false /\
  trace o = concat (unrolled (run_body invoke input body) (S k) ss) /\
  exists e : Event,
    last (forwarded o) = Some e /\
    escalates e = true /\
    last (forwarded (nth_pass (run_body invoke input body) k ss)) = Some e.
Proof.
  intros Hk Hbefore Hesc l o. subst l o. unfold loop_run, run_body in *.
  cbn [run].
  rewrite (run_loop_escalates _ n k 0 ss Hk Hbefore Hesc).
  cbn [passes final loop_outcome trace failed loop_failed forwarded].
  rewrite unrolled_length.
  do 5 (split; [reflexivity|]).
  destruct Hesc as [_ He]. unfold last_escalates in He.
  destruct (last (trace (nth_pass (run_children (run invoke input) body) k ss)))
    as [p|] eqn:El; [|discriminate].
  exists (produced_event p).
  unfold forwarded, loop_outcome. cbn [trace passes].
  rewrite !last_map_produced, last_concat_unrolled, El.
  - auto.
  - intros E. rewrite E in El. discriminate.
Qed.

End LoopClaims.

(* ===================================================================== *)
(** ** The course-creator scenario                                        *)
(* ===================================================================== *)

Section Scenario.

(** A judge verdict with the given status. *)
Definition verdict (st : string) : JsValue :=
  JObj (<["status" := JStr st]> (<["feedback" := JStr "reviewed"]> ∅)).

Definition authored_by (who : string) (e : Event) : bool :=
  match author e with
  | Some a => String.eqb a who
  | None => false
  end.

(** How many events the judge has produced so far in the session. *)
Definition judge_rounds (ss : SessionState) : nat :=
  length (List.filter (authored_by "judge") (eventLog ss)).

(** A scripted reasoning capability: every delegation yields one event; an
    agent with an output key returns the verdict ["pass"] once the judge has
    already answered [k] times when [pass_after] is [Some k], and ["fail"]
    otherwise. *)
Definition scripted (pass_after : option nat) : Capability :=
  fun a _ ss =>
    let st := match pass_after with
              | Some k => if (k <=? judge_rounds ss)%nat then "pass" else "fail"
              | None => "fail"
              end in
    {| yielded :=
         [ {| emitted := createEvent (name a)
                           {| role := "model"; parts := [textPart "done"] |} None;
              structured := match outputKey a with
                            | Some _ => Some (verdict st)
                            | None => None
                            end |} ];
       failure := None |}.

Definition fresh : SessionState := {| state := ∅; eventLog := [] |}.

Definition coffee : string := "Create a course on the history of Coffee.".

(** The judge never passes: three passes of three events each, the Loop
    ends [Exhausted], and no event escalates. *)
Example never_pass_nine_events :
  let o := runner_run (scripted None) courseCreator fresh coffee in
  length (forwarded o) = 9 /\
  failed o = false /\
  List.existsb escalates (forwarded o) = false /\
  map (fun e => default "" (author e)) (forwarded o)
  = ["researcher"; "judge"; "checker";
     "researcher"; "judge"; "checker";
     "researcher"; "judge"; "checker"].
Proof. vm_compute. repeat split; reflexivity. Qed.

(** The judge fails twice and passes on the third pass: nine events, the
    last of which is the Checker's escalate event. *)
Example pass_on_third_iteration :
  let o := runner_run (scripted (Some 2)) courseCreator fresh coffee in
  length (forwarded o) = 9 /\
  map escalates (forwarded o)
  = [false; false; false; false; false; false; false; false; true] /\
  last (forwarded o) = Some (approvedEvent "checker") /\
  state (after o) !! "judge_output" = Some (verdict "pass").
Proof. vm_compute. repeat split; reflexivity. Qed.

(** The judge passes at once: one pass only. *)
Example pass_on_first_iteration :
  let o := runner_run (scripted (Some 0)) courseCreator fresh coffee in
  map (fun e => default "" (author e)) (forwarded o)
  = ["researcher"; "judge"; "checker"] /\
  last (forwarded o) = Some (approvedEvent "checker").
Proof. vm_compute. repeat split; reflexivity. Qed.

Lemma loop_exhausts_after_max_iterations_witness :
  let l := loop_run (scripted None) coffee (stage_subAgents researchLoop) 3 fresh in
  length (passes l) = 3 /\ final l = Exhausted /\ loop_failed l = false.
Proof.
  pose proof (loop_exhausts_after_max_iterations (scripted None) coffee
                "research_loop" "course_creator_pipeline" ""
                (stage_subAgents researchLoop) [] 3 fresh) as H.
  cbv zeta in H.
  destruct H as (H1 & _ & H3 & H4 & _).
  - lia.
  - intros j Hj.
    destruct j as [|[|[|j]]]; [| | |lia]; vm_compute; split; reflexivity.
  - cbv zeta. auto.
Defined.

(** A capability whose judge cannot be reached: the researcher answers,
    every delegation of an agent with an output key raises. *)
Definition failing_judge : Capability :=
  fun a _ _ =>
    match outputKey a with
    | Some _ => {| yielded := []; failure := Some "quota exceeded" |}
    | None =>
        {| yielded :=
             [ {| emitted := createEvent (name a)
                               {| role := "model"; parts := [textPart "done"] |} None;
                  structured := None |} ];
           failure := None |}
    end.

(** C2 (as stated) fails: with [maxIterations = 3] and a judge whose
    delegation raises, no event of the run carries the escalate flag, yet
    the Loop makes one pass only and stops in [Running 0] on the failure,
    not in [Exhausted]; the enclosing Sequential ends with the error event
    and does not start the sibling that follows the Loop. *)
Lemma failed_delegation_ends_loop :
  let l := loop_run failing_judge coffee (stage_subAgents researchLoop) 3 fresh in
  let o := run failing_judge coffee
             (Sequential "course_creator_pipeline" "" [researchLoop; researcher])
             fresh in
  List.existsb escalates (forwarded o) = false /\
  length (passes l) = 1 /\
  final l = Running 0 /\
  loop_failed l = true /\
  ~ (length (passes l) = 3 /\ final l = Exhausted) /\
  (forwarded o = [createEvent "researcher"
                    {| role := "model"; parts := [textPart "done"] |} None;
                  errorEvent "judge" "quota exceeded"]) /\
  failed o = true.
Proof.
  cbv zeta. vm_compute.
  split; [reflexivity|]. split; [reflexivity|]. split; [reflexivity|].
  split; [reflexivity|]. split; [intros [H _]; discriminate H|].
  split; reflexivity.
Qed.

Lemma loop_escalates_at_pass_witness :
  let l := loop_run (scripted (Some 1)) coffee (stage_subAgents researchLoop) 3 fresh in
  length (passes l) = 2 /\ final l = Escalated.
Proof.
  pose proof (loop_escalates_at_pass (scripted (Some 1)) coffee
                "research_loop" (stage_subAgents researchLoop) 3 1 fresh) as H.
  cbv zeta in H.
  destruct H as (H1 & _ & H3 & _).
  - lia.
  - intros j Hj.
    destruct j as [|j]; [|lia]; vm_compute; split; reflexivity.
  - vm_compute; split; reflexivity.
  - cbv zeta. auto.
Defined.

(** A judge that answers in two events: the verdict first, then a closing
    remark that carries no structured output. *)
Definition chatty_judge : Capability :=
  fun a _ _ =>
    {| yielded :=
         [ {| emitted := createEvent (name a)
                           {| role := "model"; parts := [textPart "thin"] |} None;
              structured := match outputKey a with
                            | Some _ => Some (verdict "fail")
                            | None => None
                            end |};
           {| emitted := createEvent (name a)
                           {| role := "model"; parts := [textPart "done"] |} None;
              structured := None |} ];
       failure := None |}.

(** C7 (as stated) fails: the last event the judge produces carries no
    structured output, and after the run [state["judge_output"]] is the
    verdict of the event before it. *)
Lemma last_event_without_output_keeps_earlier :
  let o := runner_run chatty_judge judge fresh coffee in
  option_map (fun p => (origin p, originKey p, structured (emission p)))
             (last (trace o))
  = Some ("judge", Some "judge_output", None) /\
  length (trace o) = 2 /\
  state (after o) !! "judge_output" = Some (verdict "fail") /\
  state (after o) !! "judge_output"
  <> match last (trace o) with
     | Some p => structured (emission p)
     | None => None
     end.
Proof.
  cbv zeta. vm_compute.
  split; [reflexivity|]. split; [reflexivity|]. split; [reflexivity|].
  discriminate.
Qed.

(** The same judge inside the pipeline: three passes, and the key holds
    the verdict although every pass of the judge ends on an event without
    output. *)
Example chatty_judge_in_pipeline :
  let o := runner_run chatty_judge courseCreator fresh coffee in
  length (forwarded o) = 15 /\
  last_written "judge_output" (trace o) = Some (verdict "fail") /\
  state (after o) !! "judge_output" = Some (verdict "fail").
Proof. cbv zeta. vm_compute. repeat split; reflexivity. Qed.

End Scenario.

(* ===================================================================== *)
(** ** Facts about the stream handler (server.ts)                         *)
(* ===================================================================== *)

Section WireFacts.

(** The event frames, the error frames, the keep-alive comments and the
    [res.end()] calls among the writes. *)
Definition event_frames (w : list Write) : list Frame :=
  omap (fun x => match x with
                 | WData (EventFrame a t c r e j i) => Some (EventFrame a t c r e j i)
                 | _ => None
                 end) w.

Definition error_frames (w : list Write) : list Frame :=
  omap (fun x => match x with
                 | WData (ErrorFrame m c i) => Some (ErrorFrame m c i)
                 | _ => None
                 end) w.

Definition is_keepalive (x : Write) : bool :=
  match x with WKeepalive => true | _ => false end.

Definition is_end (x : Write) : bool :=
  match x with WEnd => true | _ => false end.

Definition keepalives (w : list Write) : nat := length (List.filter is_keepalive w).

Definition ends (w : list Write) : nat := length (List.filter is_end w).

(** The events the runner would yield if pulled to the end, each with the
    session as the handler would find it. *)
Fixpoint yields (r : Run) : list (Event * Peek) :=
  match r with
  | RDone | RThrow _ => []
  | RYield e pk rest => (e, pk) :: yields rest
  end.

(** The exception the runner's sequence ends in, if any. *)
Fixpoint throws (r : Run) : option string :=
  match r with
  | RDone => None
  | RThrow msg => Some msg
  | RYield _ _ rest => throws rest
  end.

Definition resumes (hs : list Happening) : nat :=
  length (List.filter (fun h => match h with Resume => true | _ => false end) hs).

Definition closes (hs : list Happening) : nat :=
  length (List.filter (fun h => match h with ReqClose => true | _ => false end) hs).

(** The frame of a judge-output snapshot: the frame carries one when the
    value is not [undefined]. *)
Definition frame_judge_output (f : Frame) : JsValue :=
  match f with
  | EventFrame _ _ _ _ _ j _ => j
  | ErrorFrame _ _ _ => JUndefined
  end.

Lemma event_frames_app (u v : list Write) :
  event_frames (u ++ v) = (event_frames u ++ event_frames v)%list.
Proof. apply omap_app. Qed.

Lemma error_frames_app (u v : list Write) :
  error_frames (u ++ v) = (error_frames u ++ error_frames v)%list.
Proof. apply omap_app. Qed.

Lemma keepalives_app (u v : list Write) :
  keepalives (u ++ v) = keepalives u + keepalives v.
Proof. unfold keepalives. rewrite List.filter_app, length_app. reflexivity. Qed.

Lemma ends_app (u v : list Write) : ends (u ++ v) = ends u + ends v.
Proof. unfold ends. rewrite List.filter_app, length_app. reflexivity. Qed.

Lemma run_schedule_cons (s : Stream) (h : Happening) (hs : list Happening) :
  run_schedule s (h :: hs) = run_schedule (step s h) hs.
Proof. reflexivity. Qed.

Lemma run_schedule_snoc (s : Stream) (hs : list Happening) (h : Happening) :
  run_schedule s (hs ++ [h]) = step (run_schedule s hs) h.
Proof. unfold run_schedule. rewrite fold_left_app. reflexivity. Qed.

End WireFacts.

Section FrameContents.

Variable rid : string.
Variable all : list (Event * Peek).

Definition frame_of (x : Event * Peek) : Frame := event_frame rid (fst x) (snd x).

(** The event frames written so far are those of the first [eventCount]
    events of the runner, and the rest of the sequence is still to come. *)
Definition frames_follow (s : Stream) : Prop :=
  reqId s = rid /\
  event_frames (wire s) = map frame_of (take (eventCount s) all) /\
  match phase s with
  | Ended => True
  | Pulling => drop (eventCount s) all = yields (source s)
  | Peeking e pk => drop (eventCount s) all = (e, pk) :: yields (source s)
  end.

Lemma frames_follow_step (s : Stream) (h : Happening) :
  frames_follow s -> frames_follow (step s h).
Proof.
  intros (Hid & Hfr & Hph). destruct h; simpl.
  - unfold on_resume. destruct (phase s) as [|e pk|] eqn:Ep.
    + destruct (source s) as [|msg|e pk rest] eqn:Es.
      * repeat split; simpl; auto. rewrite event_frames_app, Hfr. simpl.
        apply app_nil_r.
      * repeat split; simpl; auto.
        rewrite !event_frames_app, Hfr. simpl. rewrite !app_nil_r. reflexivity.
      * destruct (aborted s).
        -- repeat split; simpl; auto. rewrite event_frames_app, Hfr. simpl.
           apply app_nil_r.
        -- repeat split; simpl; auto.
    + assert (Hn : all !! eventCount s = Some (e, pk)).
      { rewrite <- (Nat.add_0_r (eventCount s)), <- lookup_drop, Hph.
        reflexivity. }
      repeat split; simpl; auto.
      * rewrite event_frames_app, Hfr. simpl.
        rewrite (take_S_r _ _ _ Hn), map_app, Hid. reflexivity.
      * pose proof (drop_S _ _ _ Hn) as Hd. rewrite Hph in Hd. congruence.
    + repeat split; auto. rewrite Ep. exact I.
  - repeat split; simpl; auto.
  - unfold on_tick. destruct (ping s); [|repeat split; auto].
    repeat split; simpl; auto. rewrite event_frames_app, Hfr. simpl.
    apply app_nil_r.
Qed.

Lemma frames_follow_run (hs : list Happening) (s : Stream) :
  frames_follow s -> frames_follow (run_schedule s hs).
Proof.
  revert s. induction hs as [|h hs IH]; intros s H; [exact H|].
  rewrite run_schedule_cons. apply IH, frames_follow_step, H.
Qed.

End FrameContents.

Section FrameClaims.

Lemma frames_follow_open (rid : string) (src : Run) :
  frames_follow rid (yields src) (open_stream rid src).
Proof. repeat split. Qed.

(** C4 (as amended). Whatever the schedule, the event frames transmitted
    are, in order, those of the events pulled so far; each carries the
    author (["system"] when the event has none), the text, the names only of
    the function calls and responses, the escalate flag, the request id, and
    the [judge_output] found in the session at that moment, whether or not
    it differs from the one in the previous frame. *)
Theorem frame_carries_current_judge_output (rid : string) (src : Run)
    (hs : list Happening) :
  let s := serve rid src hs in
  event_frames (wire s)
  = map (fun x : Event * Peek =>
           EventFrame (default "system" (author (fst x)))
                      (stringifyContent (fst x))
                      (map fc_name (getFunctionCalls (fst x)))
                      (map fr_name (getFunctionResponses (fst x)))
                      (escalates (fst x))
                      (peek_judge_output (snd x))
                      rid)
        (take (eventCount s) (yields src)).
Proof.
  intros s.
  destruct (frames_follow_run rid (yields src) hs _ (frames_follow_open rid src))
    as (_ & H & _).
  exact H.
Qed.

(** The session as the handler finds it once the judge has merged a
    verdict. *)
Definition judged (st : string) : Peek :=
  GetSessionReturns
    (Some {| state := <["judge_output" := verdict st]> ∅; eventLog := [] |}).

(** The judge answers, then the Checker asks for a retry: the verdict in the
    session is the same at both events. *)
Definition judge_then_checker : Run :=
  RYield (createEvent "judge" {| role := "model"; parts := [textPart "thin"] |} None)
         (judged "fail")
    (RYield (retryEvent "checker") (judged "fail") RDone).

(** C4 (as stated) fails: the second frame carries the snapshot although the
    value is the one the previous frame carried. *)
Lemma unchanged_snapshot_is_resent :
  let s := serve "r1" judge_then_checker [Resume; Resume; Resume; Resume; Resume] in
  let f1 := EventFrame "judge" "thin" [] [] false (verdict "fail") "r1" in
  let f2 := EventFrame "checker" "Research failed quality check. Retrying..."
              [] [] false (verdict "fail") "r1" in
  wire s = [WHead 200; WRetry; WData f1; WData f2; WEnd] /\
  frame_judge_output f2 = frame_judge_output f1 /\
  frame_judge_output f2 <> JUndefined.
Proof.
  cbv zeta. split; [vm_compute; reflexivity|]. split; [reflexivity|].
  discriminate.
Qed.

End FrameClaims.

Section CliFacts.

Variable stringify : JsValue -> string.

(** The judge-output lines among the printed lines. *)
Definition state_lines (ls : list Line) : list string :=
  omap (fun l => match l with LState j => Some j | _ => None end) ls.

(** No two consecutive elements are equal. *)
Fixpoint changes (prev : string) (js : list string) : Prop :=
  match js with
  | [] => True
  | j :: rest => j <> prev /\ changes j rest
  end.

(** [lastJudgePrinted] is the last judge-output line printed. *)
Definition tracks_last (c : Console) : Prop :=
  lastJudgePrinted c = List.last (state_lines (printed_lines c)) "".

Lemma last_cons_default (x : string) (js : list string) (d d' : string) :
  List.last (x :: js) d = List.last (x :: js) d'.
Proof.
  revert x. induction js as [|y js IH]; intros x; [reflexivity|].
  change (List.last (y :: js) d = List.last (y :: js) d'). apply IH.
Qed.

Lemma changes_snoc (prev : string) (js : list string) (j : string) :
  changes prev js -> j <> List.last js prev -> changes prev (js ++ [j]).
Proof.
  revert prev. induction js as [|x js IH]; intros prev Hc Hj.
  - simpl in *. auto.
  - destruct Hc as [Hx Hc]. split; [exact Hx|]. apply IH; [exact Hc|].
    destruct js as [|y js]; [exact Hj|].
    rewrite (last_cons_default y js x prev).
    exact Hj.
Qed.

Lemma state_lines_app (u v : list Line) :
  state_lines (u ++ v) = (state_lines u ++ state_lines v)%list.
Proof. apply omap_app. Qed.

Lemma state_lines_calls (a : string) (xs : list FunctionCall) :
  state_lines (map (fun c => LToolCall a (fc_name c)) xs) = [].
Proof. induction xs; simpl; auto. Qed.

Lemma state_lines_responses (a : string) (xs : list FunctionResponse) :
  state_lines (map (fun r => LToolResponse a (fr_name r)) xs) = [].
Proof. induction xs; simpl; auto. Qed.

Lemma on_event_state_lines (c : Console) (e : Event) (pk : Peek) :
  let c' := fst (on_event stringify c e pk) in
  exists new,
    state_lines (printed_lines c') = (state_lines (printed_lines c) ++ new)%list /\
    (new = [] /\ lastJudgePrinted c' = lastJudgePrinted c \/
     exists j, new = [j] /\ j <> lastJudgePrinted c /\ j <> "" /\
               lastJudgePrinted c' = j).
Proof.
  unfold on_event.
  set (lines := (_ ++ _ ++ _ ++ _)%list).
  set (l5 := match lines with [] => _ | _ => _ end).
  assert (Hl : state_lines lines = []).
  { subst lines.
    rewrite !state_lines_app, state_lines_calls, state_lines_responses.
    destruct (nonempty _); destruct (escalates e); reflexivity. }
  assert (H5 : state_lines l5 = []).
  { subst l5. destruct lines; [destruct (String.eqb _ _)|]; reflexivity. }
  destruct pk as [|session]; cbn [fst printed_lines lastJudgePrinted].
  - exists []. rewrite !state_lines_app, Hl, H5. auto.
  - set (judgeStr := if truthy _ then _ else _).
    destruct (nonempty judgeStr) eqn:Hne;
      [destruct (String.eqb judgeStr (lastJudgePrinted c)) eqn:Heq|]; simpl.
    + exists []. rewrite !state_lines_app, Hl, H5. auto.
    + exists [judgeStr]. rewrite !state_lines_app, Hl, H5.
      split; [reflexivity|]. right. exists judgeStr.
      apply String.eqb_neq in Heq. unfold nonempty in Hne.
      apply negb_true_iff, String.eqb_neq in Hne. auto.
    + exists []. rewrite !state_lines_app, Hl, H5. auto.
Qed.

Lemma on_event_tracks (c : Console) (e : Event) (pk : Peek) :
  tracks_last c -> changes "" (state_lines (printed_lines c)) ->
  tracks_last (fst (on_event stringify c e pk)) /\
  changes "" (state_lines (printed_lines (fst (on_event stringify c e pk)))).
Proof.
  unfold tracks_last. intros Ht Hc.
  destruct (on_event_state_lines c e pk) as (new & Hs & Hcase).
  cbv zeta in Hs, Hcase. rewrite Hs.
  destruct Hcase as [[-> Hl] | (j & -> & Hj & Hne & Hl)].
  - rewrite app_nil_r, Hl. auto.
  - rewrite Hl, last_last. split; [reflexivity|].
    apply changes_snoc; [exact Hc|]. rewrite <- Ht. exact Hj.
Qed.

(** X10. The command-line runner prints a judge-output line only when its
    text differs from the last one printed: over a whole run no two
    consecutive judge-output lines are equal, and none is empty. *)
Lemma main_prints_only_changes (evs : list (Event * Peek)) :
  changes "" (state_lines (printed_lines (fst (main_loop stringify start evs)))).
Proof.
  assert (H : forall c, tracks_last c ->
            changes "" (state_lines (printed_lines c)) ->
            changes "" (state_lines (printed_lines (fst (main_loop stringify c evs))))).
  { induction evs as [|[e pk] evs IH]; intros c Ht Hc; [exact Hc|].
    simpl. destruct (on_event_tracks c e pk Ht Hc) as [Ht' Hc'].
    destruct (on_event stringify c e pk) as [c' [msg|]]; simpl in *.
    - exact Hc'.
    - apply IH; assumption. }
  apply H; [reflexivity | exact I].
Qed.

End CliFacts.

Section CloseFacts.

(** The frame of the event in flight when the listener fired: the only event
    frame that may still be written. *)
Definition in_flight (s0 : Stream) (extra : list Write) : Prop :=
  event_frames extra = [] \/
  exists e pk, phase s0 = Peeking e pk /\
               event_frames extra = [event_frame (reqId s0) e pk].

(** What holds of every state reached after the [close] listener ran in
    [s0]. *)
Definition after_close (s0 s : Stream) : Prop :=
  aborted s = true /\ ping s = false /\ reqId s = reqId s0 /\
  exists extra,
    wire s = (wire s0 ++ extra)%list /\
    keepalives extra = 0 /\
    match phase s with
    | Peeking e pk => phase s0 = Peeking e pk /\ extra = [] /\ source s = source s0
    | Pulling => source s = source s0 /\ in_flight s0 extra
    | Ended =>
        (source s = source s0 \/ exists e pk, source s0 = RYield e pk (source s)) /\
        in_flight s0 extra
    end.

Lemma after_close_init (s : Stream) : after_close s (on_close s).
Proof.
  repeat split. exists []. simpl. rewrite app_nil_r.
  repeat split. destruct (phase s); repeat split; auto; left; reflexivity.
Qed.

Lemma after_close_step (s0 s : Stream) (h : Happening) :
  after_close s0 s -> after_close s0 (step s h).
Proof.
  intros (Ha & Hp & Hid & extra & Hw & Hk & Hph). destruct h; simpl.
  - unfold on_resume. destruct (phase s) as [|e pk|] eqn:Ep.
    + destruct Hph as [Hsrc Hfl].
      assert (Hfl' : forall tail, event_frames tail = [] ->
                                  in_flight s0 (extra ++ tail)).
      { intros tail Ht. unfold in_flight in *.
        rewrite event_frames_app, Ht, app_nil_r. exact Hfl. }
      destruct (source s) as [|msg|e pk rest] eqn:Es.
      * do 3 (split; [assumption || reflexivity|]).
        exists (extra ++ [WEnd])%list. simpl.
        split; [rewrite Hw, app_assoc; reflexivity|].
        split; [rewrite keepalives_app, Hk; reflexivity|].
        split; [left; congruence | apply Hfl'; reflexivity].
      * do 3 (split; [assumption || reflexivity|]).
        exists (extra ++ [WData (ErrorFrame msg "stream_error" (reqId s)); WEnd])%list.
        simpl.
        split; [rewrite Hw, <- !app_assoc; reflexivity|].
        split; [rewrite keepalives_app, Hk; reflexivity|].
        split; [left; congruence | apply Hfl'; reflexivity].
      * rewrite Ha.
        do 3 (split; [assumption || reflexivity|]).
        exists (extra ++ [WEnd])%list. simpl.
        split; [rewrite Hw, app_assoc; reflexivity|].
        split; [rewrite keepalives_app, Hk; reflexivity|].
        split; [right; exists e, pk; congruence | apply Hfl'; reflexivity].
    + destruct Hph as (H0 & -> & Hsrc).
      do 3 (split; [assumption || reflexivity|]).
      exists [WData (event_frame (reqId s) e pk)]. simpl.
      split; [rewrite Hw, app_nil_r; reflexivity|]. split; [reflexivity|].
      split; [exact Hsrc|]. right. exists e, pk. rewrite Hid. auto.
    + do 3 (split; [assumption|]). exists extra. rewrite Ep. auto.
  - do 3 (split; [assumption || reflexivity|]). exists extra. auto.
  - unfold on_tick. rewrite Hp.
    do 3 (split; [assumption|]). exists extra. auto.
Qed.

Lemma after_close_run (s0 : Stream) (hs : list Happening) (s : Stream) :
  after_close s0 s -> after_close s0 (run_schedule s hs).
Proof.
  revert s. induction hs as [|h hs IH]; intros s H; [exact H|].
  rewrite run_schedule_cons. apply IH, after_close_step, H.
Qed.

(** The resumptions an aborted stream still needs before it ends: one when it
    waits for the next event, two when an event is in flight. *)
Definition closing_work (s : Stream) : nat :=
  match phase s with
  | Ended => 0
  | Pulling => 1
  | Peeking _ _ => 2
  end.

Lemma aborted_stream_ends (hs : list Happening) (s : Stream) :
  aborted s = true -> closing_work s <= resumes hs ->
  phase (run_schedule s hs) = Ended.
Proof.
  revert s. induction hs as [|h hs IH]; intros s Ha Hw.
  - unfold resumes in Hw. simpl in Hw. unfold closing_work in Hw.
    change (phase s = Ended). destruct (phase s); [lia | lia | reflexivity].
  - rewrite run_schedule_cons. unfold resumes in *.
    destruct h; simpl in *; apply IH; auto.
    + unfold on_resume. destruct (phase s); [|exact Ha|exact Ha].
      destruct (source s); simpl; auto. rewrite Ha. reflexivity.
    + unfold closing_work, on_resume in *.
      destruct (phase s) as [|e pk|] eqn:Ep; simpl.
      * destruct (source s); simpl; try lia. rewrite Ha. simpl. lia.
      * lia.
      * rewrite Ep. lia.
    + unfold on_tick. destruct (ping s); exact Ha.
    + unfold closing_work, on_tick in *. destruct (ping s); exact Hw.
Qed.

(** C5. When the observer closes the transport the listener sets the
    cancellation flag and clears the keep-alive interval at once, writing
    nothing.  Whatever happens afterwards, no keep-alive is written; the only
    event frame that can still go out is that of the event already in flight
    when the listener fired; and at the next event boundary the loop stops:
    at most one more event is pulled from the runner, it gets no frame, and
    the rest of the sequence is left unpulled.  The listener does not
    interrupt the handler where it is suspended; the stream ends once the
    handler has resumed at the boundary, however long the rest of the
    sequence is. *)
Theorem close_stops_stream (s : Stream) (hs : list Happening) :
  let s1 := step s ReqClose in
  let s2 := run_schedule s1 hs in
  aborted s1 = true /\ ping s1 = false /\ wire s1 = wire s /\
  phase s1 = phase s /\ source s1 = source s /\
  aborted s2 = true /\ ping s2 = false /\
  (closing_work s <= resumes hs -> phase s2 = Ended) /\
  exists extra : list Write,
    wire s2 = (wire s ++ extra)%list /\
    keepalives extra = 0 /\
    (event_frames extra = [] \/
     exists e pk, phase s = Peeking e pk /\
                  event_frames extra = [event_frame (reqId s) e pk]) /\
    (source s2 = source s \/
     exists e pk, source s = RYield e pk (source s2) /\ phase s2 = Ended).
Proof.
  intros s1 s2. subst s1 s2. simpl step.
  do 5 (split; [reflexivity|]).
  destruct (after_close_run (on_close s) hs _ (after_close_init s))
    as (Ha & Hp & _ & extra & Hw & Hk & Hph).
  split; [exact Ha|]. split; [exact Hp|].
  split; [intros Hres; apply aborted_stream_ends; [reflexivity | exact Hres]|].
  exists extra. split; [exact Hw|]. split; [exact Hk|].
  destruct (phase (run_schedule (on_close s) hs)) as [|e pk|] eqn:Ep.
  - destruct Hph as [Hs Hf]. split; [exact Hf | left; exact Hs].
  - destruct Hph as (_ & -> & Hs). split; [left; reflexivity | left; exact Hs].
  - destruct Hph as [[Hs | (e & pk & Hs)] Hf];
      (split; [exact Hf|]); [left; exact Hs | right; exists e, pk; auto].
Qed.

(** Three events; the observer leaves while the first is in flight.  Its
    frame still goes out, the second event is pulled and dropped at the
    boundary, the third is never pulled, and the ticks write nothing. *)
Definition three_events : Run :=
  RYield (createEvent "researcher" {| role := "model"; parts := [textPart "facts"] |} None)
         (GetSessionReturns (Some fresh))
    (RYield (createEvent "judge" {| role := "model"; parts := [textPart "thin"] |} None)
            (judged "fail")
       (RYield (retryEvent "checker") (judged "fail") RDone)).

Example close_while_event_in_flight :
  let s := serve "r1" three_events
             [PingTick; Resume; ReqClose; PingTick; Resume; PingTick; Resume;
              PingTick; Resume] in
  wire s = [WHead 200; WRetry; WKeepalive;
            WData (EventFrame "researcher" "facts" [] [] false JUndefined "r1");
            WEnd] /\
  reason s = Aborted /\
  source s = RYield (retryEvent "checker") (judged "fail") RDone.
Proof. cbv zeta. repeat split. Qed.

End CloseFacts.

Section ErrorFacts.

(** The response is ended exactly once, by the [finally] block, and an error
    frame, if any, is the last thing written before that. *)
Definition closed_once (s : Stream) : Prop :=
  match phase s with
  | Ended =>
      ping s = false /\
      exists body,
        wire s = (body ++ [WEnd])%list /\ ends body = 0 /\
        match reason s with
        | Errored =>
            exists frames msg,
              body = (frames ++ [WData (ErrorFrame msg "stream_error" (reqId s))])%list /\
              error_frames frames = []
        | _ => error_frames body = []
        end
  | _ => ends (wire s) = 0 /\ error_frames (wire s) = [] /\ reason s = Completed
  end.

Lemma closed_once_step (s : Stream) (h : Happening) :
  closed_once s -> closed_once (step s h).
Proof.
  unfold closed_once. intros H. destruct h; simpl.
  - unfold on_resume. destruct (phase s) as [|e pk|] eqn:Ep.
    + destruct H as (He & Hf & Hr).
      destruct (source s) as [|msg|e pk rest]; simpl.
      * split; [reflexivity|]. exists (wire s). rewrite Hr. auto.
      * split; [reflexivity|].
        exists (wire s ++ [WData (ErrorFrame msg "stream_error" (reqId s))])%list.
        split; [reflexivity|]. split; [rewrite ends_app, He; reflexivity|].
        exists (wire s), msg. auto.
      * destruct (aborted s); simpl.
        -- split; [reflexivity|]. exists (wire s). auto.
        -- auto.
    + destruct H as (He & Hf & Hr). simpl.
      rewrite ends_app, error_frames_app, He, Hf. auto.
    + rewrite Ep. exact H.
  - destruct (phase s); [exact H | exact H |].
    destruct H as [_ H]. split; [reflexivity | exact H].
  - unfold on_tick. destruct (ping s) eqn:Hp;
      [|destruct (phase s); [exact H | exact H |];
        destruct H as [_ H]; split; [exact Hp | exact H]].
    simpl. destruct (phase s).
    + destruct H as (He & Hf & Hr).
      rewrite ends_app, error_frames_app, He, Hf. auto.
    + destruct H as (He & Hf & Hr).
      rewrite ends_app, error_frames_app, He, Hf. auto.
    + destruct H as [Hq _]. congruence.
Qed.

Lemma closed_once_run (hs : list Happening) (s : Stream) :
  closed_once s -> closed_once (run_schedule s hs).
Proof.
  revert s. induction hs as [|h hs IH]; intros s H; [exact H|].
  rewrite run_schedule_cons. apply IH, closed_once_step, H.
Qed.

Lemma closed_once_open (rid : string) (src : Run) :
  closed_once (open_stream rid src).
Proof. repeat split. Qed.

(** The resumptions a stream still needs before it ends. *)
Definition work (s : Stream) : nat :=
  match phase s with
  | Ended => 0
  | Pulling => 2 * length (yields (source s)) + 1
  | Peeking _ _ => 2 * length (yields (source s)) + 2
  end.

Lemma work_resume (s : Stream) : work (on_resume s) <= pred (work s).
Proof.
  unfold work, on_resume. destruct (phase s) as [|e pk|] eqn:Ep; simpl.
  - destruct (source s) as [|msg|e pk rest]; simpl; try lia.
    destruct (aborted s); simpl; lia.
  - lia.
  - rewrite Ep. lia.
Qed.

Lemma work_other (s : Stream) (h : Happening) :
  h <> Resume -> work (step s h) = work s.
Proof.
  destruct h; [congruence| |]; intros _; simpl; [reflexivity|].
  unfold on_tick. destruct (ping s); reflexivity.
Qed.

Lemma stream_ends (hs : list Happening) (s : Stream) :
  work s <= resumes hs -> phase (run_schedule s hs) = Ended.
Proof.
  revert s. induction hs as [|h hs IH]; intros s Hw.
  - unfold resumes in Hw. simpl in Hw. unfold work in Hw.
    change (phase s = Ended).
    destruct (phase s); [lia|lia|reflexivity].
  - rewrite run_schedule_cons. apply IH.
    destruct h.
    + pose proof (work_resume s). unfold resumes in *. simpl in *. lia.
    + rewrite work_other by discriminate. exact Hw.
    + rewrite work_other by discriminate. exact Hw.
Qed.

(** The runner's exception is still ahead of an unaborted stream, or it has
    been reported. *)
Definition error_pending (msg : string) (s : Stream) : Prop :=
  (phase s <> Ended /\ aborted s = false /\ throws (source s) = Some msg) \/
  (phase s = Ended /\ reason s = Errored /\
   In (WData (ErrorFrame msg "stream_error" (reqId s))) (wire s)).

Lemma error_pending_step (msg : string) (s : Stream) (h : Happening) :
  h <> ReqClose -> error_pending msg s -> error_pending msg (step s h).
Proof.
  intros Hh [(Hp & Ha & Ht) | (Hp & Hr & Hi)]; destruct h; try congruence; simpl.
  - unfold on_resume. destruct (phase s) as [|e pk|] eqn:Ep; [| |congruence].
    + destruct (source s) as [|m|e pk rest]; simpl in Ht; [discriminate| |].
      * injection Ht as ->. right. simpl. repeat split.
        rewrite !in_app_iff. left. right. left. reflexivity.
      * rewrite Ha. left. simpl. repeat split; auto; discriminate.
    + left. simpl. repeat split; auto; discriminate.
  - unfold on_tick. destruct (ping s); left; simpl; auto.
  - unfold on_resume. rewrite Hp. right. auto.
  - unfold on_tick. destruct (ping s); right; simpl; auto.
    repeat split; auto. rewrite in_app_iff. left. exact Hi.
Qed.

Lemma error_pending_run (msg : string) (hs : list Happening) (s : Stream) :
  closes hs = 0 -> error_pending msg s -> error_pending msg (run_schedule s hs).
Proof.
  revert s. induction hs as [|h hs IH]; intros s Hc H; [exact H|].
  rewrite run_schedule_cons.
  assert (Hh : h <> ReqClose).
  { intros ->. unfold closes in Hc. simpl in Hc. discriminate. }
  apply IH; [|apply error_pending_step; assumption].
  destruct h; unfold closes in *; simpl in *; congruence.
Qed.

End ErrorFacts.

Section ErrorClaims.

Lemma closed_once_errors (s : Stream) :
  closed_once s ->
  (reason s = Errored /\ phase s = Ended /\
   exists frames msg,
     wire s = (frames ++ [WData (ErrorFrame msg "stream_error" (reqId s)); WEnd])%list /\
     error_frames frames = [] /\ ends frames = 0)
  \/ (reason s <> Errored /\ error_frames (wire s) = []).
Proof.
  unfold closed_once. intros H. destruct (phase s) eqn:Ep.
  - right. destruct H as (_ & Hf & ->). split; [discriminate | exact Hf].
  - right. destruct H as (_ & Hf & ->). split; [discriminate | exact Hf].
  - destruct H as (_ & body & Hw & He & Hr).
    destruct (reason s) eqn:Er.
    + right. split; [discriminate|]. rewrite Hw, error_frames_app, Hr. reflexivity.
    + right. split; [discriminate|]. rewrite Hw, error_frames_app, Hr. reflexivity.
    + left. destruct Hr as (frames & msg & -> & Hf).
      repeat split. exists frames, msg.
      rewrite <- app_assoc in Hw. split; [exact Hw|]. split; [exact Hf|].
      rewrite ends_app in He. lia.
Qed.

Lemma closed_once_ends (s : Stream) :
  closed_once s ->
  (phase s = Ended /\ ping s = false /\ ends (wire s) = 1 /\
   last (wire s) = Some WEnd)
  \/ (phase s <> Ended /\ ends (wire s) = 0).
Proof.
  unfold closed_once. intros H. destruct (phase s) eqn:Ep.
  - right. split; [discriminate | apply H].
  - right. split; [discriminate | apply H].
  - left. destruct H as (Hp & body & Hw & He & _).
    rewrite Hw, ends_app, He, last_snoc. auto.
Qed.

Lemma last_end_counts (w : list Write) : last w = Some WEnd -> 1 <= ends w.
Proof.
  intros H. apply last_Some in H as [w' ->]. rewrite ends_app.
  change (ends [WEnd]) with 1. lia.
Qed.

Lemma error_frame_in (w : list Write) (m c i : string) :
  In (WData (ErrorFrame m c i)) w -> In (ErrorFrame m c i) (error_frames w).
Proof.
  induction w as [|x w IH]; simpl; [auto|].
  intros [-> | H]; [left; reflexivity|].
  unfold error_frames in *. simpl.
  destruct x as [| | |[]|]; simpl; auto.
Qed.

Lemma serve_reqId (rid : string) (src : Run) (hs : list Happening) :
  reqId (serve rid src hs) = rid.
Proof.
  destruct (frames_follow_run rid (yields src) hs _ (frames_follow_open rid src))
    as (H & _).
  exact H.
Qed.

(** X16. The [catch] and [finally] blocks of the stream handler.  Whatever
    the runner yields and whatever the schedule: at most one error frame is
    ever written and the response is ended at most once; the stream has
    ended exactly when [res.end()] is the last write; the run is marked as
    an error exactly when the writes end with one error frame (code
    [stream_error]) followed by [res.end()]; with enough resumptions the
    response is always ended, the interval cleared; and when pulling the
    sequence raises and the observer has not closed, that one error frame
    carries the exception's message.  Only a raised exception is reported
    this way: the theorem says nothing of an error event that the sequence
    yields. *)
Theorem stream_closed_with_one_error (rid : string) (src : Run)
    (hs : list Happening) :
  let s := serve rid src hs in
  length (error_frames (wire s)) <= 1 /\
  ends (wire s) <= 1 /\
  (phase s = Ended <-> last (wire s) = Some WEnd) /\
  (reason s = Errored <->
   exists frames msg,
     wire s = (frames ++ [WData (ErrorFrame msg "stream_error" rid); WEnd])%list /\
     error_frames frames = [] /\ ends frames = 0) /\
  (2 * length (yields src) + 1 <= resumes hs ->
   phase s = Ended /\ ping s = false) /\
  (forall msg, throws src = Some msg -> closes hs = 0 ->
     2 * length (yields src) + 1 <= resumes hs ->
     reason s = Errored /\
     error_frames (wire s) = [ErrorFrame msg "stream_error" rid]).
Proof.
  intros s.
  pose proof (closed_once_run hs _ (closed_once_open rid src)) as Hinv.
  fold (serve rid src hs) in Hinv. fold s in Hinv.
  pose proof (serve_reqId rid src hs) as Hid. fold s in Hid.
  pose proof (closed_once_errors s Hinv) as Herr.
  pose proof (closed_once_ends s Hinv) as Hend.
  rewrite Hid in Herr.
  assert (Hone : forall frames msg,
            wire s = (frames ++ [WData (ErrorFrame msg "stream_error" rid); WEnd])%list ->
            error_frames frames = [] ->
            error_frames (wire s) = [ErrorFrame msg "stream_error" rid]).
  { intros frames msg -> Hf. rewrite error_frames_app, Hf. reflexivity. }
  split; [|split; [|split; [|split; [|split]]]].
  - destruct Herr as [(_ & _ & frames & msg & Hw & Hf & _) | [_ ->]]; [|simpl; lia].
    rewrite (Hone frames msg Hw Hf). simpl. lia.
  - destruct Hend as [(_ & _ & -> & _) | [_ ->]]; lia.
  - destruct Hend as [(Hp & _ & _ & Hl) | [Hp He]]; split; auto.
    + intros Habs. congruence.
    + intros Hl. apply last_end_counts in Hl. lia.
  - split.
    + intros Hr. destruct Herr as [(_ & _ & H) | [Hn _]]; [exact H | congruence].
    + intros (frames & msg & Hw & Hf & _).
      destruct Herr as [(Hr & _) | [_ Hnone]]; [exact Hr|].
      rewrite (Hone frames msg Hw Hf) in Hnone. discriminate.
  - intros Hres.
    assert (Hp : phase s = Ended) by (apply stream_ends; exact Hres).
    destruct Hend as [(_ & Hping & _) | [Hn _]]; [auto | congruence].
  - intros msg Hthrow Hclose Hres.
    assert (Hp : phase s = Ended) by (apply stream_ends; exact Hres).
    assert (Hpend : error_pending msg s).
    { apply error_pending_run; [exact Hclose|]. left.
      split; [discriminate|]. split; [reflexivity | exact Hthrow]. }
    destruct Hpend as [(Hn & _) | (_ & Hr & Hin)]; [congruence|].
    split; [exact Hr|].
    destruct Herr as [(_ & _ & frames & msg' & Hw & Hf & _) | [Hn _]]; [|congruence].
    rewrite Hid in Hin. apply error_frame_in in Hin.
    rewrite (Hone frames msg' Hw Hf) in Hin |- *.
    destruct Hin as [Heq | []]. rewrite Heq. reflexivity.
Qed.

(** An error event as a failed delegation surfaces it. *)
Definition quota_event : Event := errorEvent "judge" "quota exceeded".

Definition error_event_run : Run :=
  RYield quota_event (GetSessionReturns (Some fresh)) RDone.

(** C6. The handler at a sequence that yields one error event and ends:
    the error event is sent as an ordinary event frame with empty text,
    the response is then ended, the run is logged as completed, and no
    error frame is written.  The [catch] block that sends the error frame
    is reached by a raised exception only; the loop body has no test for
    an event that carries an error. *)
Lemma error_event_gets_no_error_frame :
  let s := serve "r1" error_event_run [Resume; Resume; Resume] in
  is_error_event quota_event = true /\
  wire s = [WHead 200; WRetry;
            WData (EventFrame "judge" "" [] [] false JUndefined "r1"); WEnd] /\
  error_frames (wire s) = [] /\
  reason s = Completed.
Proof. cbv zeta. repeat split. Qed.

(** The sequence raises after one event. *)
Definition raising_run : Run :=
  RYield (retryEvent "checker") (judged "fail") (RThrow "model unavailable").

(** The [catch] block does not look at [aborted]: when the pull raises
    after the observer closed, the error frame is still written. *)
Example error_frame_after_close :
  let s := serve "r1" (RThrow "model unavailable") [ReqClose; Resume] in
  wire s = [WHead 200; WRetry;
            WData (ErrorFrame "model unavailable" "stream_error" "r1"); WEnd] /\
  reason s = Errored.
Proof. cbv zeta. split; reflexivity. Qed.

Lemma stream_closed_with_one_error_witness :
  let s := serve "r1" raising_run [Resume; PingTick; Resume; Resume; Resume] in
  phase s = Ended /\ ping s = false /\
  reason s = Errored /\
  error_frames (wire s) = [ErrorFrame "model unavailable" "stream_error" "r1"].
Proof.
  cbv zeta.
  destruct (stream_closed_with_one_error "r1" raising_run
              [Resume; PingTick; Resume; Resume; Resume])
    as (_ & _ & _ & _ & Hend & Herr).
  destruct Hend as [H1 H2]; [vm_compute; lia|].
  destruct (Herr "model unavailable") as [H3 H4];
    [reflexivity | reflexivity | vm_compute; lia |].
  auto.
Defined.

End ErrorClaims.

(* ===================================================================== *)
(** ** Facts about request validation (schemas.ts, server.ts)             *)
(* ===================================================================== *)

Section ValidationClaims.

(** The field is a string whose length lies between [lo] and [hi]. *)
Definition string_between (lo hi : nat) (v : option QVal) : Prop :=
  exists s, v = Some (QString s) /\ lo <= String.length s <= hi.

Definition is_string (v : option QVal) : Prop :=
  exists s, v = Some (QString s).

Definition coercible (zod : Zod) (v : option QVal) : Prop :=
  exists raw, v = Some raw /\ coerce_number_accepts zod raw = true.

Definition absent_or (P : option QVal -> Prop) (v : option QVal) : Prop :=
  v = None \/ P v.

(** The three required fields are well formed. *)
Definition required_fields_valid (query : gmap string QVal) : Prop :=
  string_between 1 128 (query !! "userId") /\
  string_between 1 128 (query !! "sessionId") /\
  string_between 1 2000 (query !! "q").

Lemma z_string_min_max_spec (lo hi : nat) (v : option QVal) :
  z_string_min_max lo hi v = true <-> string_between lo hi v.
Proof.
  unfold z_string_min_max, string_between. split.
  - destruct v as [[s| |]|]; try discriminate.
    intros H. apply andb_true_iff in H as [H1 H2].
    apply Nat.leb_le in H1, H2. eauto.
  - intros (s & -> & H1 & H2). apply andb_true_iff.
    split; apply Nat.leb_le; assumption.
Qed.

Lemma optional_spec (check : option QVal -> bool) (P : option QVal -> Prop)
    (v : option QVal) :
  (check v = true <-> P v) -> (optional check v = true <-> absent_or P v).
Proof.
  intros H. unfold optional, absent_or. destruct v as [x|].
  - rewrite H. split; [auto | intros [Hn | Hp]; [discriminate | exact Hp]].
  - split; auto.
Qed.

Lemma z_string_spec (v : option QVal) : z_string v = true <-> is_string v.
Proof.
  unfold z_string, is_string. split.
  - destruct v as [[s| |]|]; try discriminate. eauto.
  - intros (s & ->). reflexivity.
Qed.

Lemma z_coerce_number_spec (zod : Zod) (v : option QVal) :
  z_coerce_number zod v = true <-> coercible zod v.
Proof.
  unfold z_coerce_number, coercible. split.
  - destruct v as [raw|]; [eauto | discriminate].
  - intros (raw & -> & H). exact H.
Qed.

Lemma RunStreamQuery_success_spec (zod : Zod) (query : gmap string QVal) :
  RunStreamQuery_success zod query = true <->
  required_fields_valid query /\
  absent_or is_string (query !! "model") /\
  absent_or (coercible zod) (query !! "maxIterations").
Proof.
  unfold RunStreamQuery_success, required_fields_valid, id.
  rewrite !andb_true_iff, !z_string_min_max_spec.
  rewrite (optional_spec _ _ _ (z_string_spec _)).
  rewrite (optional_spec _ _ _ (z_coerce_number_spec zod _)).
  tauto.
Qed.

(** C9 (as amended). The query is accepted if and only if [userId] and
    [sessionId] are strings of 1 to 128 characters, [q] is a string of 1 to
    2000 characters and, besides, [model], when present, is a string and
    [maxIterations], when present, is a value [z.coerce.number()] accepts.
    A rejected request is answered 400 with the JSON body
    [{error, code: 'invalid_request', reqId}], no stream is opened and the
    session store is left as it was; an accepted one opens the stream. *)
Theorem run_stream_validation (zod : Zod) (appName rid : string)
    (runAsync : gmap SessionKey SessionState -> RunStreamData -> Run)
    (query : gmap string QVal) (store : gmap SessionKey SessionState) :
  (RunStreamQuery_success zod query = true <->
   required_fields_valid query /\
   absent_or is_string (query !! "model") /\
   absent_or (coercible zod) (query !! "maxIterations")) /\
  match handle_run_stream zod appName rid runAsync query store with
  | (Refused r, store') =>
      RunStreamQuery_success zod query = false /\
      r = {| status := 400;
             body_error := error_message zod query;
             body_code := "invalid_request";
             body_reqId := rid |} /\
      store' = store
  | (Streaming s, store') =>
      RunStreamQuery_success zod query = true /\
      wire s = [WHead 200; WRetry] /\
      phase s = Pulling /\
      forall k, k <> (appName, string_field (query !! "userId"),
                      string_field (query !! "sessionId")) ->
                store' !! k = store !! k
  end.
Proof.
  split; [apply RunStreamQuery_success_spec|].
  unfold handle_run_stream, RunStreamQuery_safeParse.
  destruct (RunStreamQuery_success zod query); simpl.
  - repeat split. intros k Hk.
    destruct (store !! _); [reflexivity|].
    unfold createSession. apply lookup_insert_ne. congruence.
  - repeat split.
Qed.

(** A query whose [model] key is repeated: the parser hands over a list. *)
Definition repeated_model_query : gmap string QVal :=
  <["userId" := QString "user-1"]>
    (<["sessionId" := QString "session-1"]>
       (<["q" := QString "Create a course on Coffee."]>
          (<["model" := QArray [QString "a"; QString "b"]]> ∅))).

(** C9 (as stated) fails: the three required fields are well formed and the
    query is rejected all the same, whatever the number coercion accepts. *)
Lemma valid_required_fields_still_rejected :
  required_fields_valid repeated_model_query /\
  forall zod, RunStreamQuery_success zod repeated_model_query = false.
Proof.
  split.
  - repeat split; eexists; (split; [vm_compute; reflexivity | simpl; lia]).
  - intros zod. vm_compute. reflexivity.
Qed.

(** The query of the test suite, and its variations. *)
Definition valid_query : gmap string QVal :=
  <["userId" := QString "user-1"]>
    (<["sessionId" := QString "session-1"]>
       (<["q" := QString "Create a course on Coffee."]> ∅)).

Definition long (n : nat) : string := String.concat "" (repeat "a" n).

Example accepts_a_valid_query (zod : Zod) :
  RunStreamQuery_success zod valid_query = true.
Proof. vm_compute. reflexivity. Qed.

Example rejects_missing_userId (zod : Zod) :
  RunStreamQuery_success zod (delete "userId" valid_query) = false.
Proof. vm_compute. reflexivity. Qed.

Example rejects_empty_q (zod : Zod) :
  RunStreamQuery_success zod (<["q" := QString ""]> valid_query) = false.
Proof. vm_compute. reflexivity. Qed.

Example accepts_q_exactly_2000 (zod : Zod) :
  RunStreamQuery_success zod (<["q" := QString (long 2000)]> valid_query) = true.
Proof. vm_compute. reflexivity. Qed.

Example rejects_q_over_2000 (zod : Zod) :
  RunStreamQuery_success zod (<["q" := QString (long 2001)]> valid_query) = false.
Proof. vm_compute. reflexivity. Qed.

Example rejects_userId_over_128 (zod : Zod) :
  RunStreamQuery_success zod (<["userId" := QString (long 129)]> valid_query) = false.
Proof. vm_compute. reflexivity. Qed.

Example rejects_uncoercible_maxIterations (zod : Zod) :
  coerce_number_accepts zod (QString "abc") = false ->
  RunStreamQuery_success zod (<["maxIterations" := QString "abc"]> valid_query) = false.
Proof.
  intros H. unfold RunStreamQuery_success.
  replace (<["maxIterations" := QString "abc"]> valid_query !! "maxIterations")
    with (Some (QString "abc")) by (symmetry; apply lookup_insert_eq).
  simpl. rewrite H. apply andb_false_r.
Qed.

End ValidationClaims.

(* ===================================================================== *)
(** ** More of schemas.ts                                                 *)
(* ===================================================================== *)

Section SchemaFacts.

Lemma session_create_body_accepts_iff_aux (body : gmap string QVal) :
  SessionCreateBody_success body = true <->
  string_between 1 128 (body !! "userId") /\
  absent_or (string_between 1 128) (body !! "sessionId").
Proof.
  unfold SessionCreateBody_success, id.
  rewrite andb_true_iff, z_string_min_max_spec.
  rewrite (optional_spec _ _ _ (z_string_min_max_spec 1 128 _)).
  tauto.
Qed.

(** X1. [SessionCreateBody] accepts a body if and only if [userId] is a
    string of 1 to 128 characters and [sessionId] is either missing or a
    string of 1 to 128 characters; an empty or over-long [sessionId] is
    refused rather than ignored. *)
Theorem session_create_body_accepts_iff (body : gmap string QVal) :
  SessionCreateBody_success body = true <->
  string_between 1 128 (body !! "userId") /\
  absent_or (string_between 1 128) (body !! "sessionId").
Proof. apply session_create_body_accepts_iff_aux. Qed.

(** The fields the stream query schema declares. *)
Definition declared_fields : list string :=
  ["userId"; "sessionId"; "q"; "model"; "maxIterations"].

(** X2. The stream query is judged on its five declared fields only: adding,
    changing or removing any other key of the query never changes the
    verdict. *)
Theorem run_stream_query_ignores_other_keys (zod : Zod)
    (query : gmap string QVal) (k : string) (v : QVal) :
  ~ In k declared_fields ->
  RunStreamQuery_success zod (<[k := v]> query) = RunStreamQuery_success zod query /\
  RunStreamQuery_success zod (delete k query) = RunStreamQuery_success zod query.
Proof.
  intros Hk. unfold declared_fields in Hk. simpl in Hk.
  assert (Hne : forall f, In f declared_fields -> k <> f).
  { intros f Hf ->. apply Hk. exact Hf. }
  unfold RunStreamQuery_success.
  rewrite !lookup_insert_ne, !lookup_delete_ne
    by (apply Hne; simpl; tauto).
  split; reflexivity.
Qed.

(** A zod whose number coercion refuses everything, for concrete runs. *)
Definition refusing_zod : Zod :=
  {| coerce_number_accepts := fun _ => false;
     error_message := fun _ => "Invalid input" |}.

Lemma run_stream_query_ignores_other_keys_witness :
  RunStreamQuery_success refusing_zod (<["debug" := QString "1"]> valid_query)
  = true.
Proof.
  destruct (run_stream_query_ignores_other_keys refusing_zod valid_query "debug"
              (QString "1")) as [H _].
  - simpl. intros [H|[H|[H|[H|[H|[]]]]]]; discriminate.
  - rewrite H. vm_compute. reflexivity.
Defined.

End SchemaFacts.

(* ===================================================================== *)
(** ** server.ts: POST /api/sessions                                      *)
(* ===================================================================== *)

Module Sessions.

(** What the handler reads of the session [createSession] resolves to. *)
Record Created : Type := mkCreated {
  session_id : string;
  session_userId : string;
  session_appName : string
}.

(** The answer of the handler: an error body, or the JSON
    [{id, userId, appName, reqId}]. *)
Inductive SessionsAnswer : Type :=
| SessionRefused (r : ErrorResponse)
| SessionCreated (id userId appName reqId : string).

(** [sessionId || ""] on the optional field of the parsed body. *)
Definition sessionId_or_empty (v : option QVal) : string :=
  match v with
  | Some (QString s) => s
  | _ => ""
  end.

(** The handler of [POST /api/sessions].  [create] stands for
    [sessionService.createSession] of the library: given the application,
    the user and the session id it resolves to a session or raises, and
    leaves the store as it does. *)
Definition handle_create_session (zod : Zod) (appName rid : string)
    (create : string -> string -> string -> gmap SessionKey SessionState ->
              Result Created * gmap SessionKey SessionState)
    (body : gmap string QVal) (store : gmap SessionKey SessionState)
  : SessionsAnswer * gmap SessionKey SessionState :=
  if SessionCreateBody_success body then
    let userId := string_field (body !! "userId") in
    let sessionId := sessionId_or_empty (body !! "sessionId") in
    match create appName userId sessionId store with
    | (Ok session, store') =>
        (SessionCreated (session_id session) (session_userId session)
                        (session_appName session) rid, store')
    | (Throw msg, store') =>
        (SessionRefused (sendError 500 "internal_error" msg rid), store')
    end
  else
    (SessionRefused (sendError 400 "invalid_request" (error_message zod body) rid),
     store).

End Sessions.
Export Sessions.

Section SessionFacts.

(** X3. [POST /api/sessions] answers 400 [invalid_request] exactly when the
    body fails [SessionCreateBody]; it then never consults the session
    service and leaves the store as it was.  A valid body is handed to
    [createSession] with the body's own [userId] and its [sessionId], or the
    empty string when there is none; a failure of the service is answered
    500 [internal_error].  Every answer carries the request id. *)
Theorem create_session_refuses_iff_invalid (zod : Zod) (appName rid : string)
    (create : string -> string -> string -> gmap SessionKey SessionState ->
              Result Created * gmap SessionKey SessionState)
    (body : gmap string QVal) (store : gmap SessionKey SessionState) :
  let answer := handle_create_session zod appName rid create body store in
  let served := create appName (string_field (body !! "userId"))
                       (sessionId_or_empty (body !! "sessionId")) store in
  (SessionCreateBody_success body = false <->
   exists msg, fst answer = SessionRefused (sendError 400 "invalid_request" msg rid)) /\
  (SessionCreateBody_success body = false ->
   answer = (SessionRefused
               (sendError 400 "invalid_request" (error_message zod body) rid),
             store)) /\
  (SessionCreateBody_success body = true ->
   snd answer = snd served /\
   match fst served with
   | Ok session =>
       fst answer = SessionCreated (session_id session) (session_userId session)
                                   (session_appName session) rid
   | Throw msg =>
       fst answer = SessionRefused (sendError 500 "internal_error" msg rid)
   end /\
   (body !! "userId" = Some (QString (string_field (body !! "userId")))) /\
   (body !! "sessionId" = None \/
    body !! "sessionId" = Some (QString (sessionId_or_empty (body !! "sessionId"))))).
Proof.
  intros answer served. subst answer served. unfold handle_create_session.
  destruct (SessionCreateBody_success body) eqn:Hs.
  - split; [|split]; [|discriminate|].
    + split; [discriminate|]. intros [msg H].
      destruct (create _ _ _ _) as [[session|m] store']; simpl in H;
        unfold sendError in H; congruence.
    + intros _. apply session_create_body_accepts_iff_aux in Hs.
      destruct Hs as [(u & Hu & _) Hsid].
      split; [destruct (create _ _ _ _) as [[?|?] ?]; reflexivity|].
      split; [destruct (create _ _ _ _) as [[?|?] ?]; reflexivity|].
      split; [rewrite Hu; reflexivity|].
      destruct Hsid as [Hn | (s & Hs' & _)]; [left; exact Hn|].
      right. rewrite Hs'. reflexivity.
  - split; [|split]; [| |discriminate].
    + split; [|reflexivity]. intros _. eexists. reflexivity.
    + intros _. reflexivity.
Qed.

End SessionFacts.

(* ===================================================================== *)
(** ** More of the stream handler                                         *)
(* ===================================================================== *)

Section StreamSessionFacts.

(** X4. An accepted stream request always finds a session under
    (application, user, session) once the handler has prepared the store,
    and a session that already existed is never replaced: the store is then
    exactly as it was.  A missing one is created, and the runner is started
    over the store so prepared.  A refused request leaves the store
    untouched. *)
Theorem stream_request_keeps_existing_session (zod : Zod) (appName rid : string)
    (runAsync : gmap SessionKey SessionState -> RunStreamData -> Run)
    (query : gmap string QVal) (store : gmap SessionKey SessionState) :
  let key := (appName, string_field (query !! "userId"),
              string_field (query !! "sessionId")) in
  match handle_run_stream zod appName rid runAsync query store with
  | (Streaming s, store') =>
      is_Some (store' !! key) /\
      (is_Some (store !! key) -> store' = store) /\
      (store !! key = None -> store' = createSession key store) /\
      exists data,
        RunStreamQuery_safeParse zod query = Ok data /\
        source s = runAsync store' data /\
        query !! "userId" = Some (QString (userId data)) /\
        query !! "sessionId" = Some (QString (sessionId data)) /\
        query !! "q" = Some (QString (q data))
  | (Refused _, store') => store' = store
  end.
Proof.
  intros key. subst key.
  unfold handle_run_stream, RunStreamQuery_safeParse.
  destruct (RunStreamQuery_success zod query) eqn:Hs; [|reflexivity].
  cbn [userId sessionId q].
  apply RunStreamQuery_success_spec in Hs.
  destruct Hs as (((u & Hu & _) & (i & Hi & _) & (t & Ht & _)) & _).
  destruct (store !! _) as [sess|] eqn:Hk.
  - split; [rewrite Hk; eauto|]. split; [reflexivity|]. split; [discriminate|].
    eexists. split; [reflexivity|]. cbn [userId sessionId q].
    rewrite Hu, Hi, Ht. auto.
  - split; [unfold createSession; rewrite lookup_insert_eq; eauto|].
    split; [intros [x Hx]; discriminate|]. split; [reflexivity|].
    eexists. split; [reflexivity|]. cbn [userId sessionId q].
    rewrite Hu, Hi, Ht. auto.
Qed.

End StreamSessionFacts.

Section StreamAccounting.

Definition ticks (hs : list Happening) : nat :=
  length (List.filter (fun h => match h with PingTick => true | _ => false end) hs).

(** The count the handler logs matches the frames it has sent. *)
Definition count_matches (s : Stream) : Prop :=
  eventCount s = length (event_frames (wire s)).

Lemma count_matches_step (s : Stream) (h : Happening) :
  count_matches s -> count_matches (step s h).
Proof.
  unfold count_matches. intros H. destruct h; simpl.
  - unfold on_resume. destruct (phase s) as [|e pk|].
    + destruct (source s) as [|msg|e pk rest]; simpl.
      * rewrite event_frames_app, length_app. simpl. lia.
      * rewrite !event_frames_app, !length_app. simpl. lia.
      * destruct (aborted s); simpl; [|exact H].
        rewrite event_frames_app, length_app. simpl. lia.
    + simpl. rewrite event_frames_app, length_app. simpl. lia.
    + exact H.
  - exact H.
  - unfold on_tick. destruct (ping s); [|exact H]. simpl.
    rewrite event_frames_app, length_app. simpl. lia.
Qed.

Lemma count_matches_run (hs : list Happening) (s : Stream) :
  count_matches s -> count_matches (run_schedule s hs).
Proof.
  revert s. induction hs as [|h hs IH]; intros s H; [exact H|].
  rewrite run_schedule_cons. apply IH, count_matches_step, H.
Qed.

(** X5. At every moment of every run, the event count the handler keeps
    (and logs at the end) is the number of event frames it has written:
    keep-alives, the error frame and an event dropped on abort are not
    counted; and it never exceeds the number of events the runner can
    yield. *)
Theorem event_count_is_frames_sent (rid : string) (src : Run)
    (hs : list Happening) :
  let s := serve rid src hs in
  eventCount s = length (event_frames (wire s)) /\
  eventCount s <= length (yields src).
Proof.
  intros s.
  assert (Hc : count_matches s).
  { apply count_matches_run. reflexivity. }
  split; [exact Hc|].
  destruct (frames_follow_run rid (yields src) hs _ (frames_follow_open rid src))
    as (_ & Hf & _).
  fold (serve rid src hs) in Hf. fold s in Hf.
  unfold count_matches in Hc. rewrite Hf, length_map, length_take in Hc. lia.
Qed.

End StreamAccounting.

Section StreamOutcome.

Variable all : list (Event * Peek).
Variable src : Run.

(** How far the handler has got, by phase: while the loop runs the run is
    still marked completed and the events not yet framed are the one in
    flight and those still to be pulled; once it has ended, the reason tells
    how, and unless the loop was aborted every event yielded was framed. *)
Definition accounted (s : Stream) : Prop :=
  throws (source s) = throws src /\
  match phase s with
  | Pulling =>
      reason s = Completed /\ drop (eventCount s) all = yields (source s)
  | Peeking e pk =>
      reason s = Completed /\ drop (eventCount s) all = (e, pk) :: yields (source s)
  | Ended =>
      match reason s with
      | Completed => source s = RDone /\ drop (eventCount s) all = []
      | Errored => (exists msg, source s = RThrow msg) /\ drop (eventCount s) all = []
      | Aborted => aborted s = true
      end
  end.

Lemma accounted_step (s : Stream) (h : Happening) :
  accounted s -> accounted (step s h).
Proof.
  unfold accounted. intros [Ht H]. destruct h; simpl.
  - unfold on_resume. destruct (phase s) as [|e pk|] eqn:Ep.
    + destruct H as [Hr Hd].
      destruct (source s) as [|msg|e pk rest] eqn:Es; simpl.
      * rewrite Hr, Es. auto.
      * rewrite Es. split; [exact Ht|]. split; [eauto | exact Hd].
      * destruct (aborted s) eqn:Ha; simpl; auto.
    + destruct H as [Hr Hd]. simpl. split; [exact Ht|]. split; [exact Hr|].
      assert (Hn : all !! eventCount s = Some (e, pk)).
      { rewrite <- (Nat.add_0_r (eventCount s)), <- lookup_drop, Hd. reflexivity. }
      pose proof (drop_S _ _ _ Hn) as Hd'. rewrite Hd in Hd'. congruence.
    + rewrite Ep. auto.
  - split; [exact Ht|]. destruct (phase s); [exact H | exact H |].
    destruct (reason s); auto.
  - unfold on_tick. destruct (ping s); simpl; auto.
Qed.

Lemma accounted_run (hs : list Happening) (s : Stream) :
  accounted s -> accounted (run_schedule s hs).
Proof.
  revert s. induction hs as [|h hs IH]; intros s H; [exact H|].
  rewrite run_schedule_cons. apply IH, accounted_step, H.
Qed.

End StreamOutcome.

Section StreamOutcomeFacts.

Lemma accounted_open (rid : string) (src : Run) :
  accounted (yields src) src (open_stream rid src).
Proof. repeat split. Qed.

Lemma unaborted_without_close (hs : list Happening) (s : Stream) :
  aborted s = false -> closes hs = 0 -> aborted (run_schedule s hs) = false.
Proof.
  revert s. induction hs as [|h hs IH]; intros s Ha Hc; [exact Ha|].
  rewrite run_schedule_cons. unfold closes in *.
  destruct h; simpl in *; try discriminate; apply IH; auto.
  - unfold on_resume. destruct (phase s); auto.
    destruct (source s); simpl; auto. rewrite Ha. reflexivity.
  - unfold on_tick. destruct (ping s); exact Ha.
Qed.

Lemma all_framed (rid : string) (src : Run) (hs : list Happening) :
  drop (eventCount (serve rid src hs)) (yields src) = [] ->
  event_frames (wire (serve rid src hs))
  = map (fun x => event_frame rid (fst x) (snd x)) (yields src) /\
  eventCount (serve rid src hs) = length (yields src).
Proof.
  intros Hd.
  destruct (frames_follow_run rid (yields src) hs _ (frames_follow_open rid src))
    as (_ & Hf & _).
  fold (serve rid src hs) in Hf.
  assert (Hc : count_matches (serve rid src hs))
    by (apply count_matches_run; reflexivity).
  assert (Hlen : length (yields src) <= eventCount (serve rid src hs)).
  { apply (f_equal length) in Hd. rewrite length_drop in Hd. simpl in Hd. lia. }
  rewrite take_ge in Hf by exact Hlen. split; [exact Hf|].
  unfold count_matches in Hc. rewrite Hc, Hf, length_map. reflexivity.
Qed.

(** X6. While the observer stays connected, nothing is lost or reordered:
    once the handler has resumed often enough, the stream has ended and the
    event frames written are exactly those of every event the runner
    yielded, in the order it yielded them, whether the sequence ended
    normally or by raising. *)
Theorem connected_stream_delivers_all (rid : string) (src : Run)
    (hs : list Happening) :
  closes hs = 0 ->
  2 * length (yields src) + 1 <= resumes hs ->
  let s := serve rid src hs in
  phase s = Ended /\
  event_frames (wire s)
  = map (fun x => event_frame rid (fst x) (snd x)) (yields src) /\
  eventCount s = length (yields src) /\
  reason s <> Aborted.
Proof.
  intros Hc Hr s.
  assert (Hp : phase s = Ended) by (apply stream_ends; exact Hr).
  assert (Ha : aborted s = false)
    by (apply unaborted_without_close; [reflexivity | exact Hc]).
  pose proof (accounted_run (yields src) src hs _ (accounted_open rid src))
    as [_ Hk].
  fold (serve rid src hs) in Hk. fold s in Hk. rewrite Hp in Hk.
  split; [exact Hp|].
  destruct (reason s) eqn:Er.
  - destruct Hk as [_ Hd]. destruct (all_framed rid src hs Hd) as [H1 H2].
    repeat split; auto; discriminate.
  - congruence.
  - destruct Hk as [_ Hd]. destruct (all_framed rid src hs Hd) as [H1 H2].
    repeat split; auto; discriminate.
Qed.

Lemma connected_stream_delivers_all_witness :
  event_frames (wire (serve "r1" judge_then_checker
                        [Resume; PingTick; Resume; Resume; Resume; Resume]))
  = [EventFrame "judge" "thin" [] [] false (verdict "fail") "r1";
     EventFrame "checker" "Research failed quality check. Retrying..."
       [] [] false (verdict "fail") "r1"].
Proof.
  destruct (connected_stream_delivers_all "r1" judge_then_checker
              [Resume; PingTick; Resume; Resume; Resume; Resume])
    as (_ & H & _); [reflexivity | vm_compute; lia |].
  rewrite H. reflexivity.
Defined.

(** X7. The reason the handler logs is truthful.  It stays [completed]
    until the stream ends; a stream that ends [completed] has pulled the
    runner to its end, which was not an exception, and framed every event;
    one that ends [error] met the runner's exception, after framing every
    event before it; one that ends [aborted] had its close listener fire. *)
Theorem logged_reason_is_truthful (rid : string) (src : Run)
    (hs : list Happening) :
  let s := serve rid src hs in
  let every := map (fun x => event_frame rid (fst x) (snd x)) (yields src) in
  (phase s <> Ended -> reason s = Completed) /\
  (phase s = Ended -> reason s = Completed ->
   source s = RDone /\ throws src = None /\ event_frames (wire s) = every) /\
  (reason s = Errored ->
   phase s = Ended /\ event_frames (wire s) = every /\
   exists msg, throws src = Some msg /\ source s = RThrow msg) /\
  (reason s = Aborted ->
   phase s = Ended /\ aborted s = true /\ 1 <= closes hs).
Proof.
  intros s every. subst every.
  pose proof (accounted_run (yields src) src hs _ (accounted_open rid src))
    as [Ht Hk].
  fold (serve rid src hs) in Ht, Hk. fold s in Ht, Hk.
  assert (Hnot : phase s <> Ended -> reason s = Completed).
  { intros Hp. destruct (phase s); [apply Hk | apply Hk | congruence]. }
  split; [exact Hnot|]. split; [|split].
  - intros Hp Hr. rewrite Hp, Hr in Hk. destruct Hk as [Hs Hd].
    split; [exact Hs|]. split; [rewrite <- Ht, Hs; reflexivity|].
    apply (all_framed rid src hs Hd).
  - intros Hr.
    assert (Hp : phase s = Ended).
    { destruct (phase s) eqn:Ep; [| |reflexivity];
        rewrite (Hnot ltac:(discriminate)) in Hr; discriminate. }
    rewrite Hp, Hr in Hk. destruct Hk as [[msg Hs] Hd].
    split; [exact Hp|]. split; [apply (all_framed rid src hs Hd)|].
    exists msg. split; [rewrite <- Ht, Hs; reflexivity | exact Hs].
  - intros Hr.
    assert (Hp : phase s = Ended).
    { destruct (phase s) eqn:Ep; [| |reflexivity];
        rewrite (Hnot ltac:(discriminate)) in Hr; discriminate. }
    rewrite Hp, Hr in Hk. split; [exact Hp|]. split; [exact Hk|].
    destruct (closes hs) eqn:Hc; [|lia].
    pose proof (unaborted_without_close hs (open_stream rid src) eq_refl Hc) as Hu.
    fold (serve rid src hs) in Hu. fold s in Hu. congruence.
Qed.

End StreamOutcomeFacts.

Section KeepAliveFacts.

Lemma ended_stays_ended (hs : list Happening) (s : Stream) :
  phase s = Ended -> phase (run_schedule s hs) = Ended.
Proof.
  revert s. induction hs as [|h hs IH]; intros s H; [exact H|].
  rewrite run_schedule_cons. apply IH. destruct h; simpl.
  - unfold on_resume. rewrite H. exact H.
  - exact H.
  - unfold on_tick. destruct (ping s); exact H.
Qed.

Lemma wire_grows (hs : list Happening) (s : Stream) :
  exists extra, wire (run_schedule s hs) = (wire s ++ extra)%list.
Proof.
  revert s. induction hs as [|h hs IH]; intros s.
  - exists []. simpl. rewrite app_nil_r. reflexivity.
  - rewrite run_schedule_cons. destruct (IH (step s h)) as [extra He].
    assert (Hs : exists one, wire (step s h) = (wire s ++ one)%list).
    { destruct h; simpl.
      - unfold on_resume. destruct (phase s).
        + destruct (source s); simpl.
          * eexists. reflexivity.
          * exists [WData (ErrorFrame msg "stream_error" (reqId s)); WEnd].
            rewrite <- app_assoc. reflexivity.
          * destruct (aborted s); simpl; [eexists; reflexivity|].
            exists []. rewrite app_nil_r. reflexivity.
        + simpl. eexists. reflexivity.
        + exists []. rewrite app_nil_r. reflexivity.
      - exists []. rewrite app_nil_r. reflexivity.
      - unfold on_tick. destruct (ping s); simpl; [eexists; reflexivity|].
        exists []. rewrite app_nil_r. reflexivity. }
    destruct Hs as [one Ho]. exists (one ++ extra)%list.
    rewrite He, Ho, app_assoc. reflexivity.
Qed.

Ltac count_keepalives :=
  simpl; rewrite ?keepalives_app; unfold keepalives, ticks; simpl; lia.

Lemma keepalives_step (s : Stream) (h : Happening) :
  keepalives (wire (step s h)) <= keepalives (wire s) + ticks [h].
Proof.
  destruct h; simpl.
  - unfold on_resume. destruct (phase s); [| count_keepalives | count_keepalives].
    destruct (source s); [count_keepalives | count_keepalives |].
    destruct (aborted s); count_keepalives.
  - count_keepalives.
  - unfold on_tick. destruct (ping s); count_keepalives.
Qed.

Lemma ticks_cons (h : Happening) (hs : list Happening) :
  ticks (h :: hs) = ticks [h] + ticks hs.
Proof. unfold ticks. destruct h; reflexivity. Qed.

Lemma keepalives_at_most_ticks (hs : list Happening) (s : Stream) :
  keepalives (wire (run_schedule s hs)) <= keepalives (wire s) + ticks hs.
Proof.
  revert s. induction hs as [|h hs IH]; intros s.
  - unfold ticks. simpl. lia.
  - rewrite run_schedule_cons, ticks_cons. specialize (IH (step s h)).
    pose proof (keepalives_step s h). lia.
Qed.

Lemma keepalives_open_step (s : Stream) (h : Happening) :
  ping s = true -> h <> ReqClose -> phase (step s h) <> Ended ->
  ping (step s h) = true /\
  keepalives (wire (step s h)) = keepalives (wire s) + ticks [h].
Proof.
  intros Hp Hh Hn. destruct h; [| congruence |]; simpl in *.
  - unfold on_resume in *. destruct (phase s).
    + destruct (source s); simpl in *; try congruence.
      destruct (aborted s); simpl in *; [congruence|].
      split; [exact Hp | count_keepalives].
    + split; [exact Hp | count_keepalives].
    + split; [exact Hp | count_keepalives].
  - unfold on_tick in *. rewrite Hp in *.
    split; [exact Hp | count_keepalives].
Qed.

Lemma keepalives_while_open (hs : list Happening) (s : Stream) :
  ping s = true -> closes hs = 0 -> phase (run_schedule s hs) <> Ended ->
  keepalives (wire (run_schedule s hs)) = keepalives (wire s) + ticks hs.
Proof.
  revert s. induction hs as [|h hs IH]; intros s Hp Hc Hn.
  - unfold ticks. simpl. lia.
  - rewrite run_schedule_cons in *. rewrite ticks_cons.
    assert (Hopen : phase (step s h) <> Ended).
    { intros He. apply Hn. apply ended_stays_ended. exact He. }
    assert (Hh : h <> ReqClose).
    { intros ->. unfold closes in Hc. simpl in Hc. discriminate. }
    destruct (keepalives_open_step s h Hp Hh Hopen) as [Hp' Hk].
    rewrite IH, Hk; [lia | exact Hp' | | exact Hn].
    unfold closes in *. destruct h; simpl in *; congruence.
Qed.

(** X8. The response starts with the status line and headers followed by
    the [retry] preamble, and everything else comes after them.  Each
    keep-alive written answers one tick of the interval; and as long as the
    observer has not closed and the stream has not ended, every tick writes
    exactly one keep-alive. *)
Theorem keepalive_per_tick_while_open (rid : string) (src : Run)
    (hs : list Happening) :
  let s := serve rid src hs in
  (exists rest, wire s = WHead 200 :: WRetry :: rest) /\
  keepalives (wire s) <= ticks hs /\
  (closes hs = 0 -> phase s <> Ended -> keepalives (wire s) = ticks hs).
Proof.
  intros s. subst s. unfold serve. split; [|split].
  - destruct (wire_grows hs (open_stream rid src)) as [extra He].
    exists extra. rewrite He. reflexivity.
  - apply (keepalives_at_most_ticks hs (open_stream rid src)).
  - intros Hc Hn.
    apply (keepalives_while_open hs (open_stream rid src)); auto.
Qed.

End KeepAliveFacts.

(* ===================================================================== *)
(** ** server.ts: the API key under both of its names                     *)
(* ===================================================================== *)

Module Env.

(** Truthiness of [process.env.NAME]: the variable is set and not empty. *)
Definition env_set (v : option string) : bool :=
  match v with
  | Some s => negb (String.eqb s "")
  | None => false
  end.

(** The start-up block that copies [GEMINI_API_KEY] to the names the
    libraries look for. *)
Definition normalize_api_key (env : gmap string string) : gmap string string :=
  match env !! "GEMINI_API_KEY" with
  | Some key =>
      if env_set (Some key) then
        let env1 :=
          if env_set (env !! "GOOGLE_GENAI_API_KEY") then env
          else <["GOOGLE_GENAI_API_KEY" := key]> env in
        if env_set (env1 !! "GEMINI_API_KEY") then env1
        else <["GEMINI_API_KEY" := key]> env1
      else env
  | None => env
  end.

End Env.
Export Env.

Section EnvFacts.

Lemma normalize_api_key_cases (env : gmap string string) :
  (env_set (env !! "GEMINI_API_KEY") = true /\
   env_set (env !! "GOOGLE_GENAI_API_KEY") = false /\
   exists key, env !! "GEMINI_API_KEY" = Some key /\
               normalize_api_key env = <["GOOGLE_GENAI_API_KEY" := key]> env)
  \/
  ((env_set (env !! "GEMINI_API_KEY") = false \/
    env_set (env !! "GOOGLE_GENAI_API_KEY") = true) /\
   normalize_api_key env = env).
Proof.
  unfold normalize_api_key.
  destruct (env !! "GEMINI_API_KEY") as [key|] eqn:Hg; [|right; auto].
  destruct (env_set (Some key)) eqn:Hk; [|right; auto].
  destruct (env_set (env !! "GOOGLE_GENAI_API_KEY")) eqn:Ho.
  - right. rewrite Hg, Hk. auto.
  - left. rewrite lookup_insert_ne by discriminate. rewrite Hg, Hk. eauto.
Qed.

(** X9. A variable counts as non-empty when it is set to a string other
    than the empty one ([env_set], the truthiness test of the source).  The
    key normalisation at start-up never changes [GEMINI_API_KEY] or any
    variable other than [GOOGLE_GENAI_API_KEY]; it never overwrites a
    non-empty [GOOGLE_GENAI_API_KEY]; it changes nothing when
    [GEMINI_API_KEY] is unset or empty; when [GEMINI_API_KEY] is non-empty
    and [GOOGLE_GENAI_API_KEY] is unset or set to the empty string, the
    latter is replaced by the former's value, so that afterwards both are
    non-empty; and running it twice changes nothing more. *)
Theorem api_key_normalisation (env : gmap string string) :
  (forall k, k <> "GOOGLE_GENAI_API_KEY" -> normalize_api_key env !! k = env !! k) /\
  (env_set (env !! "GOOGLE_GENAI_API_KEY") = true -> normalize_api_key env = env) /\
  (env_set (env !! "GEMINI_API_KEY") = false -> normalize_api_key env = env) /\
  (env_set (env !! "GEMINI_API_KEY") = true ->
   env_set (normalize_api_key env !! "GOOGLE_GENAI_API_KEY") = true) /\
  (env_set (env !! "GEMINI_API_KEY") = true ->
   env_set (env !! "GOOGLE_GENAI_API_KEY") = false ->
   normalize_api_key env !! "GOOGLE_GENAI_API_KEY" = env !! "GEMINI_API_KEY") /\
  normalize_api_key (normalize_api_key env) = normalize_api_key env.
Proof.
  destruct (normalize_api_key_cases env)
    as [(Hg & Ho & key & Hk & ->) | [Hc ->]].
  - split; [|split; [|split; [|split; [|split]]]].
    + intros k Hne. apply lookup_insert_ne. congruence.
    + congruence.
    + congruence.
    + intros _. rewrite lookup_insert_eq, <- Hk. exact Hg.
    + intros _ _. rewrite lookup_insert_eq, Hk. reflexivity.
    + destruct (normalize_api_key_cases (<["GOOGLE_GENAI_API_KEY" := key]> env))
        as [(_ & Ho' & _) | [_ ->]]; [|reflexivity].
      rewrite lookup_insert_eq, <- Hk in Ho'. congruence.
  - split; [|split; [|split; [|split; [|split]]]]; auto.
    + intros Hg. destruct Hc as [Hc | Hc]; congruence.
    + intros Hg Ho. destruct Hc as [Hc | Hc]; congruence.
    + destruct (normalize_api_key_cases env) as [(Hg & Ho & _) | [_ ->]];
        [|reflexivity].
      destruct Hc as [Hc | Hc]; congruence.
Qed.

Example api_key_copied :
  normalize_api_key (<["GEMINI_API_KEY" := "k-123"]> ∅)
  = <["GOOGLE_GENAI_API_KEY" := "k-123"]> (<["GEMINI_API_KEY" := "k-123"]> ∅).
Proof. vm_compute. reflexivity. Qed.

Example empty_api_key_not_copied :
  normalize_api_key (<["GEMINI_API_KEY" := ""]> ∅) = <["GEMINI_API_KEY" := ""]> ∅.
Proof. vm_compute. reflexivity. Qed.

Example empty_google_key_overwritten :
  normalize_api_key (<["GOOGLE_GENAI_API_KEY" := ""]> (<["GEMINI_API_KEY" := "k-123"]> ∅))
  = <["GOOGLE_GENAI_API_KEY" := "k-123"]> (<["GEMINI_API_KEY" := "k-123"]> ∅).
Proof. vm_compute. reflexivity. Qed.

Example google_key_kept :
  normalize_api_key (<["GOOGLE_GENAI_API_KEY" := "g-9"]> (<["GEMINI_API_KEY" := "k-123"]> ∅))
  = <["GOOGLE_GENAI_API_KEY" := "g-9"]> (<["GEMINI_API_KEY" := "k-123"]> ∅).
Proof. vm_compute. reflexivity. Qed.

End EnvFacts.

(* ===================================================================== *)
(** ** More of index.ts                                                   *)
(* ===================================================================== *)

Module CliText.

(** The text [console.log] receives for each kind of line. *)
Definition render_line (l : Line) : string :=
  match l with
  | LText a t => "- [" ++ a ++ "] " ++ t
  | LToolCall a n => "- [" ++ a ++ "] -> tool call: " ++ n
  | LToolResponse a n => "- [" ++ a ++ "] <- tool response: " ++ n
  | LEscalating a => "- [" ++ a ++ "] escalating to parent agent"
  | LNoText a => "- [" ++ a ++ "] (no text)"
  | LState j => "- [state] judge_output = " ++ j
  end.

(** What [main] prints at the end, when the loop was not left by an
    exception: a banner and the last text seen. *)
Definition result_lines (r : Console * option string) : list string :=
  match snd r with
  | None => ["--- Pipeline Result ---"; lastText (fst r)]
  | Some _ => []
  end.

End CliText.
Export CliText.

Section CliMoreFacts.

Variable stringify : JsValue -> string.

(** The lines an event gives rise to, the judge-output line aside. *)
Definition event_lines (e : Event) : list Line :=
  let a := default "system" (author e) in
  let lines :=
    ((if nonempty (stringifyContent e) then [LText a (stringifyContent e)] else [])
     ++ map (fun c => LToolCall a (fc_name c)) (getFunctionCalls e)
     ++ map (fun r => LToolResponse a (fr_name r)) (getFunctionResponses e)
     ++ (if escalates e then [LEscalating a] else []))%list in
  (lines ++ match lines with
            | [] => if String.eqb a "user" then [] else [LNoText a]
            | _ => []
            end)%list.

(** The events the loop gets to: all of them up to and including the first
    one at which the session lookup raises. *)
Fixpoint processed (evs : list (Event * Peek)) : list (Event * Peek) :=
  match evs with
  | [] => []
  | (e, GetSessionThrows) :: _ => [(e, GetSessionThrows)]
  | (e, pk) :: rest => (e, pk) :: processed rest
  end.

Lemma on_event_prints (c : Console) (e : Event) (pk : Peek) :
  exists st,
    printed_lines (fst (on_event stringify c e pk))
    = (printed_lines c ++ event_lines e ++ st)%list /\
    (st = [] \/ exists j, st = [LState j]).
Proof.
  unfold on_event, event_lines. destruct pk as [|session]; cbn [fst printed_lines].
  - exists []. rewrite app_nil_r, <- !app_assoc. auto.
  - match goal with
    | |- context [if ?b then [LState ?j] else []] =>
        exists (if b then [LState j] else []); destruct b
    end; rewrite <- !app_assoc; eauto.
Qed.

Lemma on_event_lastText (c : Console) (e : Event) (pk : Peek) :
  lastText (fst (on_event stringify c e pk))
  = if nonempty (stringifyContent e) then stringifyContent e else lastText c.
Proof. unfold on_event. destruct pk; reflexivity. Qed.

Lemma on_event_raises (c : Console) (e : Event) (pk : Peek) :
  snd (on_event stringify c e pk) = None <-> pk <> GetSessionThrows.
Proof.
  unfold on_event. destruct pk; simpl; split; try congruence; discriminate.
Qed.

Lemma last_cons_shift (x : string) (l : list string) (d : string) :
  List.last (x :: l) d = List.last l x.
Proof.
  destruct l as [|y l]; [reflexivity|].
  apply (last_cons_default y l d x).
Qed.

Lemma main_loop_lastText (evs : list (Event * Peek)) (c : Console) :
  lastText (fst (main_loop stringify c evs))
  = List.last (List.filter nonempty
                 (map (fun x => stringifyContent (fst x)) (processed evs)))
              (lastText c).
Proof.
  revert c. induction evs as [|[e pk] evs IH]; intros c; [reflexivity|].
  simpl main_loop.
  pose proof (on_event_lastText c e pk) as Ht.
  pose proof (on_event_raises c e pk) as Hr.
  destruct (on_event stringify c e pk) as [c' [msg|]] eqn:Eo; simpl in Ht, Hr.
  - assert (Hpk : pk = GetSessionThrows).
    { destruct pk; [reflexivity|]. destruct Hr as [_ Hr].
      specialize (Hr ltac:(discriminate)). discriminate. }
    subst pk. simpl. rewrite Ht.
    destruct (nonempty (stringifyContent e)); reflexivity.
  - assert (Hpk : pk <> GetSessionThrows) by (apply Hr; reflexivity).
    rewrite IH, Ht.
    destruct pk as [|session]; [congruence|].
    simpl. destruct (nonempty (stringifyContent e)) eqn:Hn.
    + rewrite last_cons_shift. reflexivity.
    + reflexivity.
Qed.

(** X11. The result the command-line runner prints at the end is the text
    of the last event that had any text, and the empty string when no event
    had; the result is printed only when no session lookup raised during
    the run. *)
Theorem pipeline_result_is_last_text (evs : list (Event * Peek)) :
  let r := main_loop stringify start evs in
  lastText (fst r)
  = List.last (List.filter nonempty (map (fun x => stringifyContent (fst x))
                                         (processed evs))) "" /\
  (snd r = None <-> Forall (fun x => snd x <> GetSessionThrows) evs) /\
  (result_lines r <> [] <-> Forall (fun x => snd x <> GetSessionThrows) evs).
Proof.
  intros r. subst r. split; [apply main_loop_lastText|].
  assert (H : forall c, snd (main_loop stringify c evs) = None
                        <-> Forall (fun x => snd x <> GetSessionThrows) evs).
  { induction evs as [|[e pk] evs IH]; intros c.
    - simpl. split; [constructor | reflexivity].
    - simpl main_loop. pose proof (on_event_raises c e pk) as Hr.
      destruct (on_event stringify c e pk) as [c' [msg|]]; simpl in Hr.
      + split; [discriminate|]. intros HF. apply Forall_cons in HF as [Hp _].
        simpl in Hp. apply Hr in Hp. discriminate.
      + rewrite IH. rewrite Forall_cons. simpl. tauto. }
  split; [apply H|].
  rewrite <- (H start). unfold result_lines.
  destruct (snd (main_loop stringify start evs)); split; congruence.
Qed.

(** X12. No agent event passes silently on the command line: an event whose
    author is not ["user"] always prints at least one line, and an event
    with text, a tool call, a tool response or the escalate flag prints one
    whoever the author is; only a bare ["user"] event prints nothing of its
    own. *)
Theorem agent_event_always_prints (c : Console) (e : Event) (pk : Peek) :
  let a := default "system" (author e) in
  (a <> "user" \/ nonempty (stringifyContent e) = true \/
   getFunctionCalls e <> [] \/ getFunctionResponses e <> [] \/
   escalates e = true) ->
  length (printed_lines c) < length (printed_lines (fst (on_event stringify c e pk))) /\
  event_lines e <> [].
Proof.
  intros a H.
  assert (Hne : event_lines e <> []).
  { unfold event_lines. fold a.
    destruct (nonempty (stringifyContent e)); [discriminate|].
    destruct (getFunctionCalls e) as [|fc fcs]; [|discriminate].
    destruct (getFunctionResponses e) as [|fr frs]; [|discriminate].
    destruct (escalates e); [discriminate|]. simpl.
    destruct H as [H | [H | [H | [H | H]]]]; try congruence.
    destruct (String.eqb a "user") eqn:Ha; [|discriminate].
    apply String.eqb_eq in Ha. contradiction. }
  split; [|exact Hne].
  destruct (on_event_prints c e pk) as (st & -> & _).
  rewrite !length_app. destruct (event_lines e); [congruence|]. simpl. lia.
Qed.

Example bare_user_event_prints_nothing :
  event_lines {| author := Some "user"; content := None; actions := None;
                 errorCode := None; errorMessage := None |} = [].
Proof. reflexivity. Qed.

End CliMoreFacts.

Lemma agent_event_always_prints_witness :
  event_lines (createEvent "researcher" {| role := "model"; parts := [] |} None)
  <> [].
Proof.
  apply (agent_event_always_prints (fun _ => "{}") start
           (createEvent "researcher" {| role := "model"; parts := [] |} None)
           (GetSessionReturns None)).
  left. discriminate.
Defined.

(* ===================================================================== *)
(** ** App.tsx: the web client                                            *)
(* ===================================================================== *)

Module WebClient.

(** The [Frame] type of the client: what [JSON.parse] gives for a message,
    every field optional. *)
Record ClientFrame : Type := mkClientFrame {
  cf_author : option string;
  cf_text : option string;
  cf_calls : option (list string);
  cf_responses : option (list string);
  cf_escalate : option bool;
  cf_judge_output : JsValue;
  cf_error : option string
}.

(** Truthiness of an optional string: present and not empty. *)
Definition str_truthy (v : option string) : bool :=
  match v with
  | Some s => negb (String.eqb s "")
  | None => false
  end.

(** The lines [onmessage] builds for a frame ([out]); [stringify] stands
    for [JSON.stringify]. *)
Definition message_lines (stringify : JsValue -> string) (data : ClientFrame)
  : list string :=
  let who := default "system" (cf_author data) in
  let error_line := ("- [error] " ++ default "" (cf_error data))%string in
  let text_line := ("- [" ++ who ++ "] " ++ default "" (cf_text data))%string in
  let no_text_line := ("- [" ++ default "" (cf_author data) ++ "] (no text)")%string in
  let call_line := fun c => ("- [" ++ who ++ "] -> tool call: " ++ c)%string in
  let response_line := fun r => ("- [" ++ who ++ "] <- tool response: " ++ r)%string in
  let escalate_line := ("- [" ++ who ++ "] escalating to parent agent")%string in
  let state_line :=
    ("- [state] judge_output = " ++ stringify (cf_judge_output data))%string in
  ((if str_truthy (cf_error data) then [error_line] else [])
   ++ (if str_truthy (cf_text data) then [text_line] else [])
   ++ (if negb (str_truthy (cf_text data)) && str_truthy (cf_author data)
          && negb (String.eqb (default "" (cf_author data)) "user")
       then [no_text_line] else [])
   ++ map call_line (default [] (cf_calls data))
   ++ map response_line (default [] (cf_responses data))
   ++ (if default false (cf_escalate data) then [escalate_line] else [])
   ++ (if truthy (cf_judge_output data) then [state_line] else []))%list.

(** [prev.slice(-n)]: the last [n] elements. *)
Definition slice_last {A : Type} (n : nat) (l : list A) : list A :=
  drop (length l - n) l.

(** [onmessage]: a message that does not parse leaves the log alone, and so
    does a frame that gives no line; otherwise the last 1000 lines are kept
    and the new ones appended. *)
Definition on_message (stringify : JsValue -> string) (log : list string)
    (parsed : option ClientFrame) : list string :=
  match parsed with
  | None => log
  | Some data =>
      match message_lines stringify data with
      | [] => log
      | out => (slice_last 1000 log ++ out)%list
      end
  end.

(** What the client parses out of a frame the server sent: the fields the
    server put in, the judge output as serialisation and parsing leave it
    ([reparse]); [reqId] and [code] are not part of the client's type. *)
Definition received (reparse : JsValue -> JsValue) (f : Frame) : ClientFrame :=
  match f with
  | EventFrame a t c r e j _ =>
      {| cf_author := Some a; cf_text := Some t; cf_calls := Some c;
         cf_responses := Some r; cf_escalate := Some e;
         cf_judge_output := reparse j; cf_error := None |}
  | ErrorFrame m _ _ =>
      {| cf_author := None; cf_text := None; cf_calls := None;
         cf_responses := None; cf_escalate := None;
         cf_judge_output := JUndefined; cf_error := Some m |}
  end.

(** White space as [String.prototype.trim] strips it, among the code units
    below 256: tab, line feed, vertical tab, form feed, carriage return,
    space and no-break space. *)
Definition is_space (c : Ascii.ascii) : bool :=
  let n := Ascii.nat_of_ascii c in
  ((n =? 9) || (n =? 10) || (n =? 11) || (n =? 12) || (n =? 13)
   || (n =? 32) || (n =? 160))%nat.

Fixpoint trim_start (s : string) : string :=
  match s with
  | EmptyString => EmptyString
  | String c rest => if is_space c then trim_start rest else s
  end.

Fixpoint trim_end (s : string) : string :=
  match s with
  | EmptyString => EmptyString
  | String c rest =>
      match trim_end rest with
      | EmptyString => if is_space c then EmptyString else String c EmptyString
      | kept => String c kept
      end
  end.

(** [s.trim()] *)
Definition trim (s : string) : string := trim_end (trim_start s).

Definition blank (s : string) : bool := String.eqb (trim s) "".

(** [validate]: the message of the first check that fails, or nothing. *)
Definition validate (apiBase userId sessionId query : string) : option string :=
  if blank apiBase then Some "API Base is required"
  else if blank userId || (128 <? String.length userId)%nat
       then Some "User ID must be 1-128 chars"
  else if blank sessionId then Some "Session not initialized"
  else if blank query || (2000 <? String.length query)%nat
       then Some "Query must be 1-2000 chars"
  else None.

(** The query [start] puts in the URL of the event source, as the server
    parses it back; [maxIterations] is [String(maxIterations)]. *)
Definition start_query (userId sessionId query model maxIterations : string)
  : gmap string QVal :=
  <["userId" := QString userId]>
    (<["sessionId" := QString sessionId]>
       (<["q" := QString query]>
          (<["model" := QString model]>
             (<["maxIterations" := QString maxIterations]> ∅)))).

(** How [start] ends: the validation message is shown and nothing is sent;
    [new URL('/api/run/stream', apiBase)] raises and nothing is sent; or the
    event source is opened on the query. *)
Inductive Started : Type :=
| Alerted (message : string)
| UrlRaised
| Sent (query : gmap string QVal).

(** [start].  [is_url] tells whether [apiBase] parses as the base of a URL,
    that is whether [new URL] returns rather than raises. *)
Definition start (is_url : string -> bool)
    (apiBase userId sessionId query model maxIterations : string) : Started :=
  match validate apiBase userId sessionId query with
  | Some message => Alerted message
  | None =>
      if is_url apiBase
      then Sent (start_query userId sessionId query model maxIterations)
      else UrlRaised
  end.

End WebClient.
Export WebClient.

Section WebClientFacts.

Variable stringify : JsValue -> string.
Variable reparse : JsValue -> JsValue.

Lemma render_calls (a : string) (l : list FunctionCall) :
  map render_line (map (fun c => LToolCall a (fc_name c)) l)
  = map (fun c => "- [" ++ a ++ "] -> tool call: " ++ c) (map fc_name l).
Proof. induction l as [|c l IH]; simpl; [reflexivity|]. rewrite IH. reflexivity. Qed.

Lemma render_responses (a : string) (l : list FunctionResponse) :
  map render_line (map (fun r => LToolResponse a (fr_name r)) l)
  = map (fun r => "- [" ++ a ++ "] <- tool response: " ++ r) (map fr_name l).
Proof. induction l as [|c l IH]; simpl; [reflexivity|]. rewrite IH. reflexivity. Qed.

(** The judge-output line of the web client for a frame. *)
Definition client_state_line (pk : Peek) : list string :=
  if truthy (reparse (peek_judge_output pk))
  then ["- [state] judge_output = " ++ stringify (reparse (peek_judge_output pk))]
  else [].

(** The lines of an event as strings: the text line, the lines of the
    calls, responses and escalation, and the "(no text)" line. *)
Definition text_part (a : string) (e : Event) : list string :=
  if nonempty (stringifyContent e)
  then ["- [" +:+ a +:+ "] " +:+ stringifyContent e] else [].

Definition tool_part (a : string) (e : Event) : list string :=
  (map (fun c => "- [" +:+ a +:+ "] -> tool call: " +:+ c)
       (map fc_name (getFunctionCalls e))
   ++ map (fun r => "- [" +:+ a +:+ "] <- tool response: " +:+ r)
          (map fr_name (getFunctionResponses e))
   ++ (if escalates e then ["- [" +:+ a +:+ "] escalating to parent agent"] else []))%list.

Definition no_text_line (a : string) : string := "- [" +:+ a +:+ "] (no text)".

(** The event has neither tool calls nor tool responses nor the escalate
    flag. *)
Definition bare (e : Event) : Prop :=
  getFunctionCalls e = [] /\ getFunctionResponses e = [] /\ escalates e = false.

Lemma bare_tool_part (a : string) (e : Event) : bare e <-> tool_part a e = [].
Proof.
  unfold bare, tool_part.
  destruct (getFunctionCalls e), (getFunctionResponses e), (escalates e);
    simpl; split; try discriminate; auto; intros (? & ? & ?); discriminate.
Qed.

Lemma bare_dec (e : Event) : bare e \/ ~ bare e.
Proof.
  unfold bare.
  destruct (getFunctionCalls e), (getFunctionResponses e), (escalates e);
    auto; right; intros (? & ? & ?); discriminate.
Qed.

Lemma console_lines_shape (e : Event) :
  let a := default "system" (author e) in
  map render_line (event_lines e)
  = (text_part a e ++ tool_part a e
     ++ match text_part a e, tool_part a e with
        | [], [] => if String.eqb a "user" then [] else [no_text_line a]
        | _, _ => []
        end)%list.
Proof.
  intros a. unfold event_lines. fold a.
  set (lines := (_ ++ _ ++ _ ++ _)%list).
  assert (Hl : map render_line lines = (text_part a e ++ tool_part a e)%list).
  { unfold lines, text_part, tool_part.
    rewrite !map_app, render_calls, render_responses.
    destruct (nonempty (stringifyContent e)), (escalates e); reflexivity. }
  rewrite map_app, Hl, <- app_assoc. f_equal. f_equal.
  destruct lines as [|l ls].
  - symmetry in Hl. apply app_eq_nil in Hl as [-> ->].
    destruct (String.eqb a "user"); reflexivity.
  - destruct (text_part a e) as [|t ts]; [|reflexivity].
    destruct (tool_part a e) as [|t ts]; [discriminate Hl|reflexivity].
Qed.

Lemma client_lines_shape (rid : string) (e : Event) (pk : Peek) :
  let a := default "system" (author e) in
  message_lines stringify (received reparse (event_frame rid e pk))
  = (text_part a e
     ++ (if negb (nonempty (stringifyContent e)) && negb (String.eqb a "")
            && negb (String.eqb a "user")
         then [no_text_line a] else [])
     ++ tool_part a e ++ client_state_line pk)%list.
Proof.
  intros a. unfold message_lines, received, event_frame, text_part, tool_part,
    client_state_line, no_text_line.
  cbn [cf_author cf_text cf_calls cf_responses cf_escalate cf_judge_output
       cf_error default str_truthy]. fold a.
  change (negb (String.eqb (stringifyContent e) "")) with (nonempty (stringifyContent e)).
  cbv [Datatypes.id]. cbn [app]. rewrite <- ?app_assoc. reflexivity.
Qed.

(** X13. The web client shows for the server's frame of an event exactly
    the lines the command-line runner prints for that event, character for
    character, followed by a judge-output line whenever the frame carries a
    truthy judge output (the client does not compare it with the previous
    one), if and only if the event has text, or comes from ["user"], or has
    a non-empty author and is bare (no tool calls, no tool responses, no
    escalate flag), or has the empty author and is not bare.  In every
    other case the two differ by the "(no text)" line. *)
Theorem web_log_matches_console (rid : string) (e : Event) (pk : Peek) :
  let a := default "system" (author e) in
  message_lines stringify (received reparse (event_frame rid e pk))
  = (map render_line (event_lines e) ++ client_state_line pk)%list
  <->
  (nonempty (stringifyContent e) = true \/ a = "user" \/
   (a <> "" /\ bare e) \/ (a = "" /\ ~ bare e)).
Proof.
  intros a.
  rewrite (client_lines_shape rid e pk), (console_lines_shape e). fold a.
  pose proof (bare_tool_part a e) as Hb.
  destruct (bare_dec e) as [Hbare | Hbare].
  - pose proof (proj1 Hb Hbare) as Ht. rewrite Ht.
    unfold text_part. destruct (nonempty (stringifyContent e)) eqn:Hn.
    + simpl. split; auto.
    + destruct (String.eqb_spec a "user") as [Hu | Hu].
      * rewrite andb_false_r. simpl. split; auto.
      * destruct (String.eqb_spec a "") as [He | He]; simpl.
        -- split.
           ++ intros H. apply (f_equal (@length string)) in H.
              simpl in H. rewrite ?length_app in H. simpl in H. lia.
           ++ intros [H | [H | [[H _] | [_ H]]]]; congruence.
        -- split; auto.
  - assert (Ht : tool_part a e <> []) by (intros H; apply Hbare, Hb, H).
    unfold text_part. destruct (nonempty (stringifyContent e)) eqn:Hn.
    + simpl. rewrite app_nil_r. split; auto.
    + destruct (tool_part a e) as [|l ls] eqn:El; [congruence|].
      destruct (String.eqb_spec a "user") as [Hu | Hu].
      * rewrite andb_false_r. simpl. rewrite app_nil_r. split; auto.
      * destruct (String.eqb_spec a "") as [He | He]; simpl.
        -- rewrite app_nil_r. split; auto.
        -- split.
           ++ intros H. apply (f_equal (@length string)) in H.
              simpl in H. rewrite !length_app in H. simpl in H. lia.
           ++ intros [H | [H | [[_ H] | [H _]]]]; congruence.
Qed.

End WebClientFacts.

(** A tool call without text: the web client announces "(no text)" before
    the call, the command line does not. *)
Example tool_call_shown_differently :
  let e := {| author := Some "researcher";
              content := Some {| role := "model";
                                 parts := [ {| text := None;
                                               functionCall := Some {| fc_name := "google_search";
                                                                       fc_args := JNull |};
                                               functionResponse := None |} ] |};
              actions := None; errorCode := None; errorMessage := None |} in
  message_lines (fun _ => "{}") (received (fun v => v)
                                   (event_frame "r1" e (GetSessionReturns None)))
  = ["- [researcher] (no text)"; "- [researcher] -> tool call: google_search"] /\
  map render_line (event_lines e)
  = ["- [researcher] -> tool call: google_search"].
Proof. split; reflexivity. Qed.

Example empty_author_bare_shown_differently :
  let e := {| author := Some ""; content := None;
              actions := None; errorCode := None; errorMessage := None |} in
  (message_lines (fun _ => "{}") (received (fun v => v)
                                    (event_frame "r1" e (GetSessionReturns None)))
   = []) /\
  (map render_line (event_lines e) = ["- [] (no text)"]).
Proof. split; reflexivity. Qed.

Example empty_author_tool_call_shown_alike :
  let e := {| author := Some "";
              content := Some {| role := "model";
                                 parts := [ {| text := None;
                                               functionCall := Some {| fc_name := "google_search";
                                                                       fc_args := JNull |};
                                               functionResponse := None |} ] |};
              actions := None; errorCode := None; errorMessage := None |} in
  message_lines (fun _ => "{}") (received (fun v => v)
                                   (event_frame "r1" e (GetSessionReturns None)))
  = map render_line (event_lines e).
Proof. reflexivity. Qed.

Lemma web_log_matches_console_witness :
  message_lines (fun _ => "{}") (received (fun v => v)
                                   (event_frame "r1" (retryEvent "checker") (judged "fail")))
  = ["- [checker] Research failed quality check. Retrying...";
     "- [state] judge_output = {}"].
Proof.
  rewrite (proj2 (web_log_matches_console (fun _ => "{}") (fun v => v) "r1"
                    (retryEvent "checker") (judged "fail"))).
  - reflexivity.
  - left. reflexivity.
Defined.

Section ClientValidationFacts.

Lemma blank_empty : blank "" = true.
Proof. reflexivity. Qed.

Lemma not_blank_length (s : string) : blank s = false -> 1 <= String.length s.
Proof. destruct s; [discriminate | simpl; lia]. Qed.

Lemma validate_passes (apiBase userId sessionId query : string) :
  validate apiBase userId sessionId query = None <->
  blank apiBase = false /\
  (blank userId = false /\ String.length userId <= 128) /\
  blank sessionId = false /\
  (blank query = false /\ String.length query <= 2000).
Proof.
  unfold validate.
  destruct (blank apiBase), (blank userId), (blank sessionId), (blank query);
    destruct (Nat.ltb_spec 128 (String.length userId));
    destruct (Nat.ltb_spec 2000 (String.length query)); simpl;
    (split; [try discriminate; intros _; repeat split; auto; lia
            | intros (? & (? & ?) & ? & (? & ?)); try discriminate; try lia; auto]).
Qed.

(** X14. Every request the web client sends, that is whenever [validate]
    finds nothing and the URL can be built, passes the server's checks on
    [userId] and [q]: both are non-empty strings within 128 and 2000
    characters, and [sessionId] is non-empty.  The client does not bound the
    length of [sessionId]; when it is within 128 characters and the
    iteration count sent coerces to a number, the server accepts the query.
    When validation fails or [apiBase] is not a URL, nothing is sent. *)
Theorem client_validation_implies_server (zod : Zod) (is_url : string -> bool)
    (apiBase userId sessionId query model maxIterations : string)
    (sent : gmap string QVal) :
  WebClient.start is_url apiBase userId sessionId query model maxIterations
  = Sent sent ->
  validate apiBase userId sessionId query = None /\
  is_url apiBase = true /\
  sent = start_query userId sessionId query model maxIterations /\
  string_between 1 128 (sent !! "userId") /\
  string_between 1 2000 (sent !! "q") /\
  (exists s, sent !! "sessionId" = Some (QString s) /\ 1 <= String.length s) /\
  (String.length sessionId <= 128 ->
   coerce_number_accepts zod (QString maxIterations) = true ->
   RunStreamQuery_success zod sent = true).
Proof.
  unfold WebClient.start. intros Hsent.
  destruct (validate apiBase userId sessionId query) as [m|] eqn:Hv;
    [discriminate|].
  destruct (is_url apiBase) eqn:Hurl; [|discriminate].
  injection Hsent as <-.
  split; [reflexivity|]. split; [reflexivity|]. split; [reflexivity|].
  apply validate_passes in Hv.
  destruct Hv as (_ & [Hu1 Hu2] & Hs & [Hq1 Hq2]).
  apply not_blank_length in Hu1, Hs, Hq1.
  set (sent := start_query userId sessionId query model maxIterations).
  assert (Lu : sent !! "userId" = Some (QString userId)).
  { subst sent. unfold start_query. apply lookup_insert_eq. }
  assert (Ls : sent !! "sessionId" = Some (QString sessionId)).
  { subst sent. unfold start_query.
    rewrite lookup_insert_ne by discriminate. apply lookup_insert_eq. }
  assert (Lq : sent !! "q" = Some (QString query)).
  { subst sent. unfold start_query.
    rewrite !lookup_insert_ne by discriminate. apply lookup_insert_eq. }
  assert (Lm : sent !! "model" = Some (QString model)).
  { subst sent. unfold start_query.
    rewrite !lookup_insert_ne by discriminate. apply lookup_insert_eq. }
  assert (Li : sent !! "maxIterations" = Some (QString maxIterations)).
  { subst sent. unfold start_query.
    rewrite !lookup_insert_ne by discriminate. apply lookup_insert_eq. }
  split; [exists userId; auto|].
  split; [exists query; auto|].
  split; [exists sessionId; auto|].
  intros Hlen Hnum. apply RunStreamQuery_success_spec.
  split; [|split].
  - split; [exists userId; auto|]. split; [exists sessionId; auto | exists query; auto].
  - right. exists model. exact Lm.
  - right. exists (QString maxIterations). auto.
Qed.

(** Nothing is sent when validation fails or the base is not a URL. *)
Lemma start_sends_nothing (is_url : string -> bool)
    (apiBase userId sessionId query model maxIterations : string) :
  (validate apiBase userId sessionId query <> None \/ is_url apiBase = false) ->
  forall sent,
    WebClient.start is_url apiBase userId sessionId query model maxIterations
    <> Sent sent.
Proof.
  unfold WebClient.start. intros H sent.
  destruct (validate apiBase userId sessionId query); [discriminate|].
  destruct H as [H | H]; [congruence|]. rewrite H. discriminate.
Qed.

(** The server is the more lenient on blanks: a query of spaces passes its
    schema though the client would not send it. *)
Example server_accepts_blank_query (zod : Zod) :
  validate "http://localhost:3000" "user-1" "abc12" "   " = Some "Query must be 1-2000 chars" /\
  RunStreamQuery_success zod (<["q" := QString "   "]> valid_query) = true.
Proof. split; vm_compute; reflexivity. Qed.

End ClientValidationFacts.

(** A zod whose number coercion accepts everything, for concrete runs. *)
Definition lenient_zod : Zod :=
  {| coerce_number_accepts := fun _ => true;
     error_message := fun _ => "Invalid input" |}.

(** A base is taken for a URL when it starts with an http scheme: enough to
    run the client on concrete inputs. *)
Definition has_http_scheme (s : string) : bool :=
  String.prefix "http://" s || String.prefix "https://" s.

Lemma client_validation_implies_server_witness :
  RunStreamQuery_success lenient_zod
    (start_query "user-1" "abc12" "Create a course on the history of Coffee."
                 "gemini-2.5-flash" "3") = true.
Proof.
  destruct (client_validation_implies_server lenient_zod has_http_scheme
              "http://localhost:3000"
              "user-1" "abc12" "Create a course on the history of Coffee."
              "gemini-2.5-flash" "3"
              (start_query "user-1" "abc12"
                 "Create a course on the history of Coffee."
                 "gemini-2.5-flash" "3"))
    as (_ & _ & _ & _ & _ & _ & H).
  - vm_compute. reflexivity.
  - apply H; [vm_compute; lia | reflexivity].
Defined.

Example not_a_url_sends_nothing :
  WebClient.start has_http_scheme "notaurl" "user-1" "abc12" "Coffee"
                  "gemini-2.5-flash" "3" = UrlRaised.
Proof. vm_compute. reflexivity. Qed.

(* ===================================================================== *)
(** ** The earlier server.ts (no validation, no abort flag)               *)
(* ===================================================================== *)

Module Legacy.

(** The frames of the earlier handler: no request id, no error code. *)
Inductive LegacyFrame : Type :=
| LegacyEvent (author text : string) (calls responses : list string)
    (escalate : bool) (judge_output : JsValue)
| LegacyError (error : string).

Inductive LegacyWrite : Type :=
| LHead (status : nat)
| LKeepalive
| LData (f : LegacyFrame)
| LEnd.

(** The variables of one request: the interval, the suspension point of the
    handler, the runner and what was written. *)
Record LegacyStream : Type := mkLegacyStream {
  l_ping : bool;
  l_phase : Phase;
  l_source : Run;
  l_wire : list LegacyWrite
}.

Definition legacy_frame (e : Event) (pk : Peek) : LegacyFrame :=
  LegacyEvent (default "system" (author e))
              (stringifyContent e)
              (map fc_name (getFunctionCalls e))
              (map fr_name (getFunctionResponses e))
              (escalates e)
              (peek_judge_output pk).

Definition l_write (w : LegacyWrite) (s : LegacyStream) : LegacyStream :=
  {| l_ping := l_ping s; l_phase := l_phase s; l_source := l_source s;
     l_wire := l_wire s ++ [w] |}.

(** The [finally] block: [res.end()] only. *)
Definition l_finish (s : LegacyStream) : LegacyStream :=
  {| l_ping := l_ping s; l_phase := Ended; l_source := l_source s;
     l_wire := l_wire s ++ [LEnd] |}.

(** The [close] listener: [clearInterval(ping)]. *)
Definition l_on_close (s : LegacyStream) : LegacyStream :=
  {| l_ping := false; l_phase := l_phase s; l_source := l_source s;
     l_wire := l_wire s |}.

(** The interval callback: [res.write(':\n\n')], while the interval is not
    cleared.  Once the response has ended a write puts nothing on the
    wire. *)
Definition l_on_tick (s : LegacyStream) : LegacyStream :=
  if l_ping s then
    match l_phase s with
    | Ended => s
    | _ => l_write LKeepalive s
    end
  else s.

Definition l_on_resume (s : LegacyStream) : LegacyStream :=
  match l_phase s with
  | Ended => s
  | Pulling =>
      match l_source s with
      | RDone => l_finish s
      | RThrow msg => l_finish (l_write (LData (LegacyError msg)) s)
      | RYield e pk rest =>
          {| l_ping := l_ping s; l_phase := Peeking e pk; l_source := rest;
             l_wire := l_wire s |}
      end
  | Peeking e pk =>
      let s' := l_write (LData (legacy_frame e pk)) s in
      {| l_ping := l_ping s'; l_phase := Pulling; l_source := l_source s';
         l_wire := l_wire s' |}
  end.

Definition l_step (s : LegacyStream) (h : Happening) : LegacyStream :=
  match h with
  | Resume => l_on_resume s
  | ReqClose => l_on_close s
  | PingTick => l_on_tick s
  end.

Definition l_open (src : Run) : LegacyStream :=
  {| l_ping := true; l_phase := Pulling; l_source := src; l_wire := [LHead 200] |}.

Definition l_serve (src : Run) (hs : list Happening) : LegacyStream :=
  fold_left l_step hs (l_open src).

(** [String(v)] on a value of the parsed query. *)
Fixpoint js_String (v : QVal) : string :=
  match v with
  | QString s => s
  | QArray items => String.concat "," (map js_String items)
  | QObject _ => "[object Object]"
  end.

(** [String(req.query.name || fallback)]: a missing or empty parameter gives
    the fallback. *)
Definition param_or (v : option QVal) (fallback : string) : string :=
  match v with
  | None => fallback
  | Some (QString EmptyString) => fallback
  | Some x => js_String x
  end.

(** The earlier handler up to the stream: the parameters with their
    fallbacks, the session made sure of, the stream opened. *)
Definition legacy_run_stream (appName : string)
    (runAsync : gmap SessionKey SessionState -> RunStreamData -> Run)
    (query : gmap string QVal) (store : gmap SessionKey SessionState)
  : LegacyStream * gmap SessionKey SessionState :=
  let data := {| userId := param_or (query !! "userId") "user-1";
                 sessionId := param_or (query !! "sessionId") "session-1";
                 q := param_or (query !! "q")
                        "Create a course on the history of Coffee." |} in
  let k := (appName, userId data, sessionId data) in
  let store' := match store !! k with
                | Some _ => store
                | None => createSession k store
                end in
  (l_open (runAsync store' data), store').

End Legacy.
Export Legacy.

Section LegacyFacts.

Definition legacy_events (w : list LegacyWrite) : list LegacyFrame :=
  omap (fun x => match x with
                 | LData (LegacyEvent a t c r e j) => Some (LegacyEvent a t c r e j)
                 | _ => None
                 end) w.

Definition legacy_work (s : LegacyStream) : nat :=
  match l_phase s with
  | Ended => 0
  | Pulling => 2 * length (yields (l_source s)) + 1
  | Peeking _ _ => 2 * length (yields (l_source s)) + 2
  end.

(** The frames written and those still owed add up to all the events. *)
Definition legacy_owed (all : list LegacyFrame) (s : LegacyStream) : Prop :=
  all = (legacy_events (l_wire s)
         ++ match l_phase s with
            | Peeking e pk => [legacy_frame e pk]
            | _ => []
            end
         ++ match l_phase s with
            | Ended => []
            | _ => map (fun x => legacy_frame (fst x) (snd x)) (yields (l_source s))
            end)%list.

Lemma legacy_events_app (u v : list LegacyWrite) :
  legacy_events (u ++ v) = (legacy_events u ++ legacy_events v)%list.
Proof. apply omap_app. Qed.

Lemma legacy_owed_step (all : list LegacyFrame) (s : LegacyStream) (h : Happening) :
  legacy_owed all s -> legacy_owed all (l_step s h).
Proof.
  unfold legacy_owed. intros H. destruct h; simpl.
  - unfold l_on_resume. destruct (l_phase s) as [|e pk|] eqn:Ep.
    + destruct (l_source s) as [|msg|e pk rest]; simpl in *.
      * rewrite legacy_events_app. simpl. rewrite H, !app_nil_r. reflexivity.
      * rewrite !legacy_events_app. simpl. rewrite H, !app_nil_r. reflexivity.
      * exact H.
    + simpl. rewrite legacy_events_app. simpl. rewrite <- app_assoc. exact H.
    + rewrite Ep. exact H.
  - exact H.
  - unfold l_on_tick. destruct (l_ping s); [|exact H].
    destruct (l_phase s) eqn:Ep; simpl; rewrite ?Ep;
      rewrite ?legacy_events_app; simpl in *; rewrite ?app_nil_r in *; exact H.
Qed.

Lemma legacy_work_step (s : LegacyStream) (h : Happening) :
  legacy_work (l_step s h) + (match h with Resume => 1 | _ => 0 end)
  <= Nat.max (legacy_work s) (match h with Resume => 1 | _ => 0 end).
Proof.
  unfold legacy_work. destruct h; simpl.
  - unfold l_on_resume. destruct (l_phase s) as [|e pk|] eqn:Ep; simpl.
    + destruct (l_source s); simpl; lia.
    + lia.
    + rewrite Ep. lia.
  - lia.
  - unfold l_on_tick. destruct (l_ping s); [|lia].
    destruct (l_phase s) eqn:Ep; simpl; rewrite ?Ep; lia.
Qed.

Lemma legacy_run (all : list LegacyFrame) (hs : list Happening) (s : LegacyStream) :
  legacy_owed all s -> legacy_work s <= resumes hs ->
  legacy_owed all (fold_left l_step hs s) /\ l_phase (fold_left l_step hs s) = Ended.
Proof.
  revert s. induction hs as [|h hs IH]; intros s Ho Hw.
  - split; [exact Ho|]. unfold resumes, legacy_work in Hw. simpl in *.
    destruct (l_phase s); [lia | lia | reflexivity].
  - simpl. apply IH; [apply legacy_owed_step, Ho|].
    pose proof (legacy_work_step s h). unfold resumes in *.
    destruct h; simpl in *; lia.
Qed.

(** X15. The earlier handler has no abort flag: whatever the observer does,
    also after it has closed the connection, every event of the runner is
    pulled and framed, in order, and the stream ends only when the runner
    does. *)
Theorem legacy_stream_ignores_close (src : Run) (hs : list Happening) :
  2 * length (yields src) + 1 <= resumes hs ->
  l_phase (l_serve src hs) = Ended /\
  legacy_events (l_wire (l_serve src hs))
  = map (fun x => legacy_frame (fst x) (snd x)) (yields src).
Proof.
  intros Hr.
  destruct (legacy_run (map (fun x => legacy_frame (fst x) (snd x)) (yields src))
              hs (l_open src)) as [Ho Hp].
  - unfold legacy_owed. reflexivity.
  - exact Hr.
  - split; [exact Hp|]. unfold legacy_owed in Ho. fold (l_serve src hs) in Ho, Hp.
    rewrite Hp, !app_nil_r in Ho. symmetry. exact Ho.
Qed.

Lemma legacy_stream_ignores_close_witness :
  legacy_events (l_wire (l_serve judge_then_checker
                           [Resume; ReqClose; Resume; Resume; Resume; Resume]))
  = [LegacyEvent "judge" "thin" [] [] false (verdict "fail");
     LegacyEvent "checker" "Research failed quality check. Retrying..."
       [] [] false (verdict "fail")].
Proof.
  destruct (legacy_stream_ignores_close judge_then_checker
              [Resume; ReqClose; Resume; Resume; Resume; Resume]) as [_ H].
  - vm_compute. lia.
  - rewrite H. reflexivity.
Defined.

Lemma param_or_string (s fallback : string) :
  1 <= String.length s -> param_or (Some (QString s)) fallback = s.
Proof. destruct s; simpl; [lia | reflexivity]. Qed.

(** X17. On every query the current handler accepts, the earlier handler
    would have done the same: it starts the runner for the same user,
    session and question over the same store, without falling back on any
    of its defaults.  The two revisions differ only on the queries the
    current one refuses. *)
Theorem current_handler_agrees_with_earlier (zod : Zod) (appName rid : string)
    (runAsync : gmap SessionKey SessionState -> RunStreamData -> Run)
    (query : gmap string QVal) (store : gmap SessionKey SessionState) :
  RunStreamQuery_success zod query = true ->
  let earlier := legacy_run_stream appName runAsync query store in
  exists s,
    handle_run_stream zod appName rid runAsync query store
    = (Streaming s, snd earlier) /\
    source s = l_source (fst earlier) /\
    param_or (query !! "userId") "user-1" = string_field (query !! "userId") /\
    param_or (query !! "sessionId") "session-1" = string_field (query !! "sessionId") /\
    param_or (query !! "q") "Create a course on the history of Coffee."
    = string_field (query !! "q").
Proof.
  intros Hs earlier. subst earlier.
  unfold handle_run_stream, RunStreamQuery_safeParse, legacy_run_stream.
  rewrite Hs. apply RunStreamQuery_success_spec in Hs.
  destruct Hs as (((u & Hu & Hu1 & _) & (i & Hi & Hi1 & _) & (t & Ht & Ht1 & _)) & _).
  rewrite Hu, Hi, Ht, !param_or_string by assumption.
  cbn [userId sessionId q string_field fst snd l_source l_open].
  eexists. split; [reflexivity|]. auto.
Qed.

Lemma current_handler_agrees_with_earlier_witness :
  snd (handle_run_stream lenient_zod "ts-multi-agents" "r1" (fun _ _ => RDone)
         valid_query ∅)
  = snd (legacy_run_stream "ts-multi-agents" (fun _ _ => RDone) valid_query ∅).
Proof.
  destruct (current_handler_agrees_with_earlier lenient_zod "ts-multi-agents" "r1"
              (fun _ _ => RDone) valid_query ∅) as (s & H & _).
  - vm_compute. reflexivity.
  - rewrite H. reflexivity.
Defined.

(** With no parameters at all the earlier handler runs on its defaults. *)
Example earlier_handler_defaults :
  l_source (fst (legacy_run_stream "ts-multi-agents"
                   (fun _ data => RThrow (userId data ++ "/" ++ sessionId data))
                   ∅ ∅))
  = RThrow "user-1/session-1".
Proof. reflexivity. Qed.

End LegacyFacts.
